(** * service: graceful shutdown of a group of goroutines

    A verification model of [service.go].  The goroutines of a [Service]
    (the signal goroutine, the shutdown-function goroutine, the functions
    given to [Go], the callers of [OnShutdown] and [Wait]) are embedded as
    one labelled transition system: every goroutine has a program counter,
    a label names the goroutine that moves and the [select] case it takes,
    and [step] is the (partial, executable) transition function.  An
    execution is a list of labels; [run] replays it. *)

From stdpp Require Import base tactics option list strings numbers.

Set Default Proof Using "Type".

(** ** Errors and signals *)

Section service.

(** [os.Signal] is an interface; its implementation lives in the Go
    runtime.  The model takes the type of signal values, their equality
    (signals are compared by number) and their [String] method as
    parameters. *)
Context {Sig : Type} `{!EqDecision Sig}.
Variable Signal_String : Sig → string.

(** A shutdown function, [func()]: opaque to the service. *)
Context {Hook : Type}.

(** [type SignalError struct { Signal os.Signal }] *)
Record SignalError := { Signal : Sig }.

(** [func (e *SignalError) Error() string] *)
Definition Error (e : SignalError) : string :=
  "received " +:+ Signal_String (Signal e).

(** The error values that flow through the service: the two errors of
    package context, a [*SignalError], and any other error a goroutine
    may return (as [errors.New] builds it). *)
Inductive error :=
  | Canceled
  | DeadlineExceeded
  | ESignal (e : SignalError)
  | errorString (msg : string).

(** The [Error] method through the [error] interface. *)
Definition error_Error (e : error) : string :=
  match e with
  | Canceled => "context canceled"
  | DeadlineExceeded => "context deadline exceeded"
  | ESignal e => Error e
  | errorString msg => msg
  end.

(** ** Goroutines and their program counters *)

(** A function given to [Go]: running, or returned with its error. *)
Inductive task_pc :=
  | TRunning
  | TReturned (err : option error).

(** The signal goroutine of [NewService]: at its [select], or returned. *)
Inductive bridge_pc :=
  | BSelect
  | BReturned.

(** The shutdown goroutine of [NewService]: at the [select] of its [for]
    loop, at the test [i >= 0] of the inner loop with the current [i],
    inside the call [funcs[i]()], or returned. *)
Inductive manager_pc :=
  | MSelect
  | MLoop (i : Z)
  | MCall (i : Z)
  | MReturned.

(** A call of [OnShutdown]: at its [select], inside [f()], or returned. *)
Inductive onshutdown_pc :=
  | OSelect
  | OCall
  | OReturned.

(** The members of the errgroup. *)
Inductive member :=
  | MTask (t : nat)
  | MBridge
  | MManager.

(** Who runs a shutdown function: the shutdown goroutine, or the
    goroutine that called [OnShutdown]. *)
Inductive who :=
  | ByManager
  | ByCaller.

#[global] Instance who_eq_dec : EqDecision who.
Proof. solve_decision. Defined.

(** What an observer records, in the order it happens (the [ops] slice
    of the tests, extended): a shutdown function starts or ends, tagged
    with who runs it and with the index of the [OnShutdown] call that
    supplied it; a member of the group returns; [Wait] returns. *)
Inductive event :=
  | EvStart (w : who) (c : nat) (f : Hook)
  | EvEnd (w : who) (c : nat) (f : Hook)
  | EvExit (m : member) (err : option error)
  | EvWait (err : option error).

(** ** The state of a service *)

Record State := mkState {
  ctx_err : option error;        (** [ctx.Err()]; [ctx.Done()] is closed iff it is not nil *)
  g_err : option error;          (** the error slot of the group *)
  notify : list Sig;             (** the signals registered by [signal.Notify] *)
  sigC : option Sig;             (** [sigC], a channel of capacity 1 *)
  bridge : option bridge_pc;     (** the signal goroutine, when it was started *)
  funcs : list (nat * Hook);     (** [funcs], each entry with the index of its call *)
  manager : manager_pc;          (** the shutdown goroutine *)
  tasks : list task_pc;          (** the functions given to [Go] *)
  calls : list (Hook * onshutdown_pc); (** the calls of [OnShutdown] *)
  ops : list event               (** history *)
}.

Definition set_ctx_err (v : option error) (s : State) : State :=
  mkState v (g_err s) (notify s) (sigC s) (bridge s) (funcs s) (manager s)
          (tasks s) (calls s) (ops s).
Definition set_g_err (v : option error) (s : State) : State :=
  mkState (ctx_err s) v (notify s) (sigC s) (bridge s) (funcs s) (manager s)
          (tasks s) (calls s) (ops s).
Definition set_sigC (v : option Sig) (s : State) : State :=
  mkState (ctx_err s) (g_err s) (notify s) v (bridge s) (funcs s) (manager s)
          (tasks s) (calls s) (ops s).
Definition set_bridge (v : option bridge_pc) (s : State) : State :=
  mkState (ctx_err s) (g_err s) (notify s) (sigC s) v (funcs s) (manager s)
          (tasks s) (calls s) (ops s).
Definition set_funcs (v : list (nat * Hook)) (s : State) : State :=
  mkState (ctx_err s) (g_err s) (notify s) (sigC s) (bridge s) v (manager s)
          (tasks s) (calls s) (ops s).
Definition set_manager (v : manager_pc) (s : State) : State :=
  mkState (ctx_err s) (g_err s) (notify s) (sigC s) (bridge s) (funcs s) v
          (tasks s) (calls s) (ops s).
Definition set_tasks (v : list task_pc) (s : State) : State :=
  mkState (ctx_err s) (g_err s) (notify s) (sigC s) (bridge s) (funcs s)
          (manager s) v (calls s) (ops s).
Definition set_calls (v : list (Hook * onshutdown_pc)) (s : State) : State :=
  mkState (ctx_err s) (g_err s) (notify s) (sigC s) (bridge s) (funcs s)
          (manager s) (tasks s) v (ops s).
Definition log (e : event) (s : State) : State :=
  mkState (ctx_err s) (g_err s) (notify s) (sigC s) (bridge s) (funcs s)
          (manager s) (tasks s) (calls s) (ops s ++ [e]).

(** ** The context and the errgroup *)

(** Modelled from the spec: the cancellable context derived by
    [errgroup.WithContext] (package context is imported, not under src/).
    The context transitions to cancelled exactly once; the first
    cancellation fixes [ctx.Err()]. *)
Definition cancel (err : error) (s : State) : State :=
  match ctx_err s with
  | None => set_ctx_err (Some err) s
  | Some _ => s
  end.

(** Modelled from the spec: what the errgroup does when a member
    returns (golang.org/x/sync/errgroup is imported, not under src/).  The
    first member to return a non-nil error stores it in the slot and
    cancels the shared context; later stores are no-ops; a member that
    returns nil has no effect on the slot. *)
Definition g_done (m : member) (err : option error) (s : State) : State :=
  let s := log (EvExit m err) s in
  match err, g_err s with
  | Some e, None => cancel Canceled (set_g_err (Some e) s)
  | _, _ => s
  end.

Definition task_returned (t : task_pc) : bool :=
  match t with TRunning => false | TReturned _ => true end.

Definition bridge_returned (b : option bridge_pc) : bool :=
  match b with Some BSelect => false | _ => true end.

Definition manager_returned (m : manager_pc) : bool :=
  match m with MReturned => true | _ => false end.

(** Every goroutine started through the group has returned. *)
Definition all_returned (s : State) : bool :=
  forallb task_returned (tasks s)
  && bridge_returned (bridge s)
  && manager_returned (manager s).

(** Modelled from the spec: the join of the errgroup, to which
    [func (s *Service) Wait() error { return s.g.Wait() }] delegates.
    [Wait] returns only after every member's completion has been
    observed, and returns the content of the slot.  [None] here means
    that the call blocks.  (The library also releases the context when
    the join is over; by then the context is already cancelled, as is
    proved below, so this changes nothing.) *)
Definition Wait (s : State) : option (option error) :=
  if all_returned s then Some (g_err s) else None.

(** ** [NewService] *)

(** [func NewService(ctx context.Context, sig ...os.Signal)]: the derived
    context is cancelled from the start when the parent already is
    ([parent_err] is the parent's [Err()]); the signal goroutine is
    started, and the signals registered, only if [len(sig) > 0]; the
    shutdown goroutine is always started, with [funcs] empty. *)
Definition NewService (parent_err : option error) (sig : list Sig) : State :=
  let started := bool_decide (0 < length sig) in
  {| ctx_err := parent_err;
     g_err := None;
     notify := if started then sig else [];
     sigC := None;
     bridge := if started then Some BSelect else None;
     funcs := [];
     manager := MSelect;
     tasks := [];
     calls := [];
     ops := [] |}.

(** ** Transitions *)

Inductive label :=
  | LGo                                     (** [s.Go(f)]: a new goroutine runs [f] *)
  | LTaskReturn (t : nat) (err : option error) (** task [t] returns [err] *)
  | LOnShutdown (f : Hook)                  (** a goroutine enters [s.OnShutdown(f)] *)
  | LSend (c : nat)                         (** call [c]: [case s.shutdownC <- f], received by
                                                the shutdown goroutine's [case f := <-shutdownC] *)
  | LCallerDone (c : nat)                   (** call [c]: [case <-s.doneC], [f()] begins *)
  | LCallerRet (c : nat)                    (** call [c]: [f()] ends, [OnShutdown] returns *)
  | LMgrDone                                (** shutdown goroutine: [case <-ctx.Done()] *)
  | LMgrCall                                (** shutdown goroutine: [i >= 0], [funcs[i]()] begins *)
  | LMgrRet                                 (** shutdown goroutine: [funcs[i]()] ends, [i--] *)
  | LMgrExit                                (** shutdown goroutine: [i < 0], [return ctx.Err()] *)
  | LBridgeDone                             (** signal goroutine: [case <-ctx.Done()] *)
  | LBridgeSig                              (** signal goroutine: [case sig := <-sigC] *)
  | LSignal (x : Sig)                       (** the operating system delivers [x] to the process *)
  | LParentCancel (err : error)             (** the parent context is cancelled with [err] *)
  | LWait.                                  (** a call of [s.Wait()] returns *)

(** [func (s *Service) Go(f func() error) { s.g.Go(f) }] *)
Definition Go (s : State) : State :=
  set_tasks (tasks s ++ [TRunning]) s.

Definition task_step (t : nat) (err : option error) (s : State) : option State :=
  match tasks s !! t with
  | Some TRunning =>
      Some (g_done (MTask t) err (set_tasks (<[t := TReturned err]> (tasks s)) s))
  | _ => None
  end.

(** The signal goroutine:
<<
    select {
    case <-ctx.Done(): return ctx.Err()
    case sig := <-sigC: return &SignalError{Signal: sig}
    }
>>
    A [select] takes any one of the cases that can proceed. *)
Definition bridge_step (sig_case : bool) (s : State) : option State :=
  match bridge s with
  | Some BSelect =>
      if sig_case then
        match sigC s with
        | Some x =>
            Some (g_done MBridge (Some (ESignal {| Signal := x |}))
                    (set_bridge (Some BReturned) (set_sigC None s)))
        | None => None
        end
      else
        match ctx_err s with
        | Some e => Some (g_done MBridge (Some e) (set_bridge (Some BReturned) s))
        | None => None
        end
  | _ => None
  end.

(** [signal.Notify(sigC, sig...)]: package signal does not block sending
    to the channel; a registered signal is stored if the buffer has room
    and dropped otherwise; other signals never reach [sigC]. *)
Definition deliver (x : Sig) (s : State) : State :=
  if bool_decide (x ∈ notify s) then
    match sigC s with
    | None => set_sigC (Some x) s
    | Some _ => s
    end
  else s.

(** The shutdown goroutine:
<<
    var funcs []func()
    for {
      select {
      case f := <-shutdownC: funcs = append(funcs, f)
      case <-ctx.Done():
        for i := len(funcs) - 1; i >= 0; i-- { funcs[i]() }
        return ctx.Err()
      }
    }
>>
    The receive case is the rendezvous [LSend], see [OnShutdown_step];
    the other moves are here.  An index outside [funcs] would panic: no transition. *)
Definition manager_step (l : label) (s : State) : option State :=
  match l, manager s with
  | LMgrDone, MSelect =>
      match ctx_err s with
      | Some _ => Some (set_manager (MLoop (Z.of_nat (length (funcs s)) - 1)) s)
      | None => None
      end
  | LMgrCall, MLoop i =>
      if bool_decide (0 ≤ i)%Z then
        match funcs s !! Z.to_nat i with
        | Some (c, f) => Some (log (EvStart ByManager c f) (set_manager (MCall i) s))
        | None => None
        end
      else None
  | LMgrRet, MCall i =>
      match funcs s !! Z.to_nat i with
      | Some (c, f) => Some (log (EvEnd ByManager c f) (set_manager (MLoop (i - 1)) s))
      | None => None
      end
  | LMgrExit, MLoop i =>
      if bool_decide (0 ≤ i)%Z then None
      else Some (g_done MManager (ctx_err s) (set_manager MReturned s))
  | _, _ => None
  end.

(** [OnShutdown]:
<<
    select {
    case s.shutdownC <- f:
    case <-s.doneC: f()
    }
>>
    [shutdownC] is unbuffered: the send proceeds only together with the
    receive of the shutdown goroutine, so that goroutine must be at its
    [select].  The two [select]s also wait on the same channel, [doneC]
    being [ctx.Done()].  A hand-off on an unbuffered channel needs one of
    the two parties blocked in its [select]; a [select] blocks only when
    none of its cases can proceed, and closing [ctx.Done()] commits every
    [select] blocked on it to the [Done] case.  A party that arrives after
    the close finds no partner to wake and [Done] ready.  Hence the
    hand-off happens only while [ctx.Done()] is open. *)
Definition OnShutdown_step (l : label) (s : State) : option State :=
  match l with
  | LOnShutdown f => Some (set_calls (calls s ++ [(f, OSelect)]) s)
  | LSend c =>
      match calls s !! c, manager s, ctx_err s with
      | Some (f, OSelect), MSelect, None =>
          Some (set_funcs (funcs s ++ [(c, f)])
                  (set_calls (<[c := (f, OReturned)]> (calls s)) s))
      | _, _, _ => None
      end
  | LCallerDone c =>
      match calls s !! c, ctx_err s with
      | Some (f, OSelect), Some _ =>
          Some (log (EvStart ByCaller c f)
                  (set_calls (<[c := (f, OCall)]> (calls s)) s))
      | _, _ => None
      end
  | LCallerRet c =>
      match calls s !! c with
      | Some (f, OCall) =>
          Some (log (EvEnd ByCaller c f)
                  (set_calls (<[c := (f, OReturned)]> (calls s)) s))
      | _ => None
      end
  | _ => None
  end.

(** A cancellation of the parent reaches the derived context. *)
Definition parent_cancel (err : error) (s : State) : State := cancel err s.

(** The return of a call of [Wait]. *)
Definition wait_step (s : State) : option State :=
  match Wait s with
  | Some r => Some (log (EvWait r) s)
  | None => None
  end.

Definition step (s : State) (l : label) : option State :=
  match l with
  | LGo => Some (Go s)
  | LTaskReturn t err => task_step t err s
  | LOnShutdown _ | LSend _ | LCallerDone _ | LCallerRet _ => OnShutdown_step l s
  | LMgrDone | LMgrCall | LMgrRet | LMgrExit => manager_step l s
  | LBridgeDone => bridge_step false s
  | LBridgeSig => bridge_step true s
  | LSignal x => Some (deliver x s)
  | LParentCancel err => Some (parent_cancel err s)
  | LWait => wait_step s
  end.

(** Replaying an execution. *)
Fixpoint run (s : State) (tr : list label) : option State :=
  match tr with
  | [] => Some s
  | l :: tr => match step s l with Some s' => run s' tr | None => None end
  end.

(** The states a service can be in. *)
Inductive reachable : State → Prop :=
  | reachable_new parent_err sig : reachable (NewService parent_err sig)
  | reachable_step s l s' : reachable s → step s l = Some s' → reachable s'.

End service.

(** ** A concrete instance: the signals and functions of the tests *)

(** The signals of package syscall that the tests use, with the
    descriptions the Go runtime gives them on Linux. *)
Inductive syscall_Signal := SIGINT | SIGTERM | SIGUSR1 | SIGUSR2.

#[global] Instance syscall_Signal_eq_dec : EqDecision syscall_Signal.
Proof. solve_decision. Defined.

Definition syscall_Signal_String (x : syscall_Signal) : string :=
  match x with
  | SIGINT => "interrupt"
  | SIGTERM => "terminated"
  | SIGUSR1 => "user defined signal 1"
  | SIGUSR2 => "user defined signal 2"
  end.

(** ** Reading a history *)

Section history.
Context {Sig : Type} `{!EqDecision Sig} {Hook : Type}.

Abbreviation event := (@event Sig Hook).
Abbreviation State := (@State Sig Hook).

(** Who runs the shutdown function of an event, and for which call. *)
Definition ev_who (e : event) : option who :=
  match e with EvStart w _ _ | EvEnd w _ _ => Some w | _ => None end.

Definition ev_call (e : event) : option nat :=
  match e with EvStart _ c _ | EvEnd _ c _ => Some c | _ => None end.


(** The events of shutdown functions run by [w]. *)
Definition by_who (w : who) (l : list event) : list event :=
  filter (λ e, ev_who e = Some w) l.

(** The events of the shutdown function of call [c]. *)
Definition of_call (c : nat) (l : list event) : list event :=
  filter (λ e, ev_call e = Some c) l.

(** All events of shutdown functions. *)
Definition hook_events (l : list event) : list event :=
  filter (λ e, is_Some (ev_who e)) l.


(** The non-nil errors returned by members of the group, in order. *)
Definition exit_err (e : event) : option (@error Sig) :=
  match e with EvExit _ (Some err) => Some err | _ => None end.

Definition first_error (l : list event) : option (@error Sig) :=
  head (omap exit_err l).

(** The results of the calls of [Wait] that returned. *)
Definition wait_result (e : event) : option (option (@error Sig)) :=
  match e with EvWait r => Some r | _ => None end.

(** The history of a shutdown goroutine that runs the functions of [q]
    one after the other, each to its end. *)
Definition drained (q : list (nat * Hook)) : list event :=
  q ≫= λ cf, [EvStart ByManager cf.1 cf.2; EvEnd ByManager cf.1 cf.2].

(** The functions of [q] in execution order. *)
Definition executed (l : list event) : list (nat * Hook) :=
  omap (λ e, match e with EvEnd ByManager c f => Some (c, f) | _ => None end) l.

End history.

(** ** Invariants and conditions on executions *)

Section predicates.
Context {Sig : Type} `{!EqDecision Sig} {Hook : Type}.

Implicit Types (s : @State Sig Hook) (l : @label Sig Hook).

(** The slot holds the first non-nil error returned by a member; it is
    written no later than the context is cancelled; the shutdown
    goroutine leaves its [select] only on a cancelled context and leaves
    an error behind when it returns; and every call of [Wait] that has
    returned has returned the content of the slot. *)
Definition inv_err s : Prop :=
  g_err s = first_error (ops s)
  ∧ (is_Some (g_err s) → is_Some (ctx_err s))
  ∧ (manager s ≠ MSelect → is_Some (ctx_err s))
  ∧ (manager s = MReturned → is_Some (g_err s))
  ∧ (∀ r, EvWait r ∈ ops s → r = g_err s ∧ is_Some r).

(** Where the shutdown goroutine stands determines what it has run:
    nothing at its [select]; at the loop test with index [i], the
    functions at the indices above [i], last first, each to its end;
    all of [funcs] once it has returned. *)
Definition inv_mgr s : Prop :=
  match manager s with
  | MSelect => by_who ByManager (ops s) = []
  | MLoop i =>
      (-1 ≤ i < Z.of_nat (length (funcs s)))%Z
      ∧ by_who ByManager (ops s)
        = drained (reverse (drop (Z.to_nat (i + 1)) (funcs s)))
  | MCall i =>
      (0 ≤ i < Z.of_nat (length (funcs s)))%Z
      ∧ ∃ c f, funcs s !! Z.to_nat i = Some (c, f)
        ∧ by_who ByManager (ops s)
          = drained (reverse (drop (Z.to_nat (i + 1)) (funcs s)))
            ++ [EvStart ByManager c f]
  | MReturned => by_who ByManager (ops s) = drained (reverse (funcs s))
  end.

(** Every call is accounted for: while it waits at its [select] its
    function has not run and is not queued; inside [f()] the function
    was started by the caller; after its return the function either ran
    on the caller from start to end and was never queued, or it was
    queued and no caller has run it.  No call is queued twice. *)
Definition inv_calls s : Prop :=
  NoDup (funcs s).*1
  ∧ ∀ c,
      match calls s !! c with
      | None | Some (_, OSelect) =>
          of_call c (ops s) = [] ∧ c ∉ (funcs s).*1
      | Some (f, OCall) =>
          of_call c (ops s) = [EvStart ByCaller c f] ∧ c ∉ (funcs s).*1
      | Some (f, OReturned) =>
          (of_call c (ops s) = [EvStart ByCaller c f; EvEnd ByCaller c f]
           ∧ c ∉ (funcs s).*1)
          ∨ ((c, f) ∈ funcs s ∧ by_who ByCaller (of_call c (ops s)) = [])
      end.

(** Labels other than a failing task, a signal and the cancellation of
    the parent. *)
Definition quiet l : bool :=
  match l with
  | LTaskReturn _ (Some _) | LSignal _ | LParentCancel _ => false
  | _ => true
  end.

(** The service is up: nothing has cancelled the context yet. *)
Definition up s : Prop :=
  ctx_err s = None ∧ g_err s = None ∧ sigC s = None ∧ manager s = MSelect.

(** As long as the context is not cancelled the shutdown goroutine is at
    its [select], no shutdown function has been started, and every call
    of [OnShutdown] is either waiting or has handed its function over. *)
Definition inv_idle s : Prop :=
  ctx_err s = None →
  manager s = MSelect
  ∧ hook_events (ops s) = []
  ∧ ∀ c f pc, calls s !! c = Some (f, pc) →
      pc = OSelect ∨ (pc = OReturned ∧ (c, f) ∈ funcs s).

(** The first registered signal that the system delivers in an
    execution, if any. *)
Definition registered_signal (sig : list Sig) l : option Sig :=
  match l with
  | LSignal x => if bool_decide (x ∈ sig) then Some x else None
  | _ => None
  end.

Definition first_signal (sig : list Sig) (tr : list (@label Sig Hook)) : option Sig :=
  head (omap (registered_signal sig) tr).

(** In a history, every event of a shutdown function comes after a
    member of the group has returned a non-nil error. *)
Definition hooks_after_failure (h : list (@event Sig Hook)) : Prop :=
  ∀ i e, h !! i = Some e → is_Some (ev_who e) →
    is_Some (first_error (take i h)).

(** The parent context is not cancelled by this label. *)
Definition not_parent_cancel l : bool :=
  match l with LParentCancel _ => false | _ => true end.

(** Labels other than a failing task, the cancellation of the parent
    and the return of the signal goroutine with a signal. *)
Definition calm l : bool :=
  match l with
  | LTaskReturn _ (Some _) | LParentCancel _ | LBridgeSig => false
  | _ => true
  end.

(** This label does not start a task. *)
Definition not_Go l : bool :=
  match l with LGo => false | _ => true end.

End predicates.

(** ** Executions of the tests, and others *)

Abbreviation tlabel := (@label syscall_Signal string).
Abbreviation tstate := (@State syscall_Signal string).

Definition test_error : @error syscall_Signal := errorString "test error".

(** [TestServiceError]: a task fails; the shutdown goroutine and the
    signal goroutine see the cancellation and return. *)
Definition TestServiceError : list tlabel :=
  [LGo; LTaskReturn 0 (Some test_error); LMgrDone; LMgrExit; LBridgeDone].

(** [TestSignal]: the task sends SIGUSR1 to the process and waits for
    the context. *)
Definition TestSignal : list tlabel :=
  [LGo; LSignal SIGUSR1; LBridgeSig; LTaskReturn 0 None; LMgrDone; LMgrExit].

(** [TestOnShutdown]: two functions are registered, a task fails, [Wait]
    returns, a third function is registered. *)
Definition TestOnShutdown : list tlabel :=
  [LOnShutdown "shutdown-1"; LSend 0; LOnShutdown "shutdown-2"; LSend 1;
   LGo; LTaskReturn 0 (Some test_error);
   LMgrDone; LMgrCall; LMgrRet; LMgrCall; LMgrRet; LMgrExit; LWait;
   LOnShutdown "shutdown-3"; LCallerDone 2; LCallerRet 2].

(** The parent context is cancelled before the only failing task
    returns. *)
Definition parent_cancelled_first : list tlabel :=
  [LGo; LParentCancel Canceled; LMgrDone; LMgrExit;
   LTaskReturn 0 (Some test_error)].

(** A signal arrives before the only failing task returns. *)
Definition signal_first : list tlabel :=
  [LGo; LSignal SIGUSR2; LBridgeSig; LMgrDone; LMgrExit;
   LTaskReturn 0 (Some test_error)].


(** A service that runs undisturbed. *)
Definition undisturbed : list tlabel :=
  [LOnShutdown "shutdown-1"; LGo; LSend 0; LTaskReturn 0 None;
   LOnShutdown "shutdown-2"].

(** The events of shutdown functions as the tests record them: the name
    of each function, when it ends. *)
Definition ended (h : list (@event syscall_Signal string)) : list string :=
  omap (λ e, match e with EvEnd _ _ f => Some f | _ => None end) h.

(** The state an execution ends in (the initial state if it cannot be
    replayed). *)
Definition final (sig : list syscall_Signal) (tr : list tlabel) : tstate :=
  default (NewService None sig) (run (NewService None sig) tr).

Definition TestServiceError_end : tstate :=
  Eval vm_compute in final [SIGUSR2] TestServiceError.

Definition TestSignal_end : tstate :=
  Eval vm_compute in final [SIGUSR1] TestSignal.

(** [TestSignal] when the signal is in the channel. *)
Definition TestSignal_pending : tstate :=
  Eval vm_compute in final [SIGUSR1] (take 2 TestSignal).

Definition TestOnShutdown_end : tstate :=
  Eval vm_compute in final [] TestOnShutdown.


Definition parent_cancelled_first_end : tstate :=
  Eval vm_compute in final [] parent_cancelled_first.

Definition signal_first_end : tstate :=
  Eval vm_compute in final [SIGUSR2] signal_first.



Definition undisturbed_end : tstate :=
  Eval vm_compute in final [SIGUSR1] undisturbed.

(** [TestOnShutdown] when both functions are registered and the task
    runs, and when the task has failed. *)
Definition TestOnShutdown_registered : tstate :=
  Eval vm_compute in final [] (take 5 TestOnShutdown).

Definition TestOnShutdown_cancelled : tstate :=
  Eval vm_compute in final [] (take 6 TestOnShutdown).

(** [TestOnShutdown] after the first registration, when the second
    function is passed to [OnShutdown], and when [Wait] has returned. *)
Definition TestOnShutdown_one : tstate :=
  Eval vm_compute in final [] (take 2 TestOnShutdown).

Definition TestOnShutdown_second : tstate :=
  Eval vm_compute in final [] (take 3 TestOnShutdown).

Definition TestOnShutdown_waited : tstate :=
  Eval vm_compute in final [] (take 13 TestOnShutdown).

(** [TestSignal] when the signal goroutine has returned. *)
Definition TestSignal_reported : tstate :=
  Eval vm_compute in final [SIGUSR1] (take 3 TestSignal).

(** ** Basic facts about transitions *)

Section theory.
Context {Sig : Type} `{!EqDecision Sig} {Hook : Type}.

Abbreviation state := (@State Sig Hook).
Abbreviation lbl := (@label Sig Hook).

Implicit Types (s : state) (l : lbl) (tr : list lbl).

Ltac unfold_step :=
  unfold step, task_step, bridge_step, manager_step, OnShutdown_step,
    wait_step, Wait, Go, deliver, parent_cancel, g_done, cancel in *.

(** Case analysis on a transition [H : step s l = Some s']. *)
Ltac step_inv H :=
  match type of H with
  | step ?s ?l = Some ?s' =>
      destruct s; try (is_var l; destruct l); unfold_step; simpl in H;
      repeat case_match; simplify_eq/=
  end.

Lemma run_app s tr1 tr2 :
  run s (tr1 ++ tr2) = run s tr1 ≫= λ s', run s' tr2.
Proof.
  revert s; induction tr1 as [|l tr1 IH]; intros s; simpl; [done|].
  destruct (step s l); simpl; auto.
Qed.

Lemma run_reachable s tr s' : reachable s → run s tr = Some s' → reachable s'.
Proof.
  revert s; induction tr as [|l tr IH]; intros s Hs; simpl.
  - by intros [= <-].
  - destruct (step s l) as [s1|] eqn:Hl; [|done].
    apply IH. by eapply reachable_step.
Qed.

Lemma run_new_reachable parent_err sig tr s :
  run (NewService parent_err sig) tr = Some s → reachable s.
Proof. apply run_reachable. constructor. Qed.

(** The context is cancelled at most once, and stays cancelled. *)
Lemma step_ctx_err s l s' e :
  step s l = Some s' → ctx_err s = Some e → ctx_err s' = Some e.
Proof. intros H He. step_inv H; done. Qed.

(** The slot is written at most once. *)
Lemma run_ctx_err s tr s' e :
  run s tr = Some s' → ctx_err s = Some e → ctx_err s' = Some e.
Proof.
  revert s; induction tr as [|l tr IH]; intros s; simpl.
  - by intros [= <-].
  - destruct (step s l) as [s1|] eqn:Hl; [|done].
    intros ? ?. eapply IH; [done|]. by eapply step_ctx_err.
Qed.

Lemma step_g_err s l s' e :
  step s l = Some s' → g_err s = Some e → g_err s' = Some e.
Proof. intros H He. step_inv H; done. Qed.

Lemma run_g_err s tr s' e :
  run s tr = Some s' → g_err s = Some e → g_err s' = Some e.
Proof.
  revert s; induction tr as [|l tr IH]; intros s; simpl.
  - by intros [= <-].
  - destruct (step s l) as [s1|] eqn:Hl; [|done].
    intros ? ?. eapply IH; [done|]. by eapply step_g_err.
Qed.

(** ** The error slot *)

Lemma first_error_snoc (h : list (@event Sig Hook)) e :
  first_error (h ++ [e]) =
  match first_error h with Some x => Some x | None => exit_err e end.
Proof.
  unfold first_error. rewrite omap_app. simpl.
  destruct (omap exit_err h); simpl; [by destruct (exit_err e)|done].
Qed.

Lemma inv_err_new parent_err (sig : list Sig) :
  inv_err (NewService (Hook:=Hook) parent_err sig).
Proof.
  unfold inv_err; simpl. split_and!; try done.
  by intros r ?%elem_of_nil.
Qed.

Lemma all_returned_manager s : all_returned s = true → manager s = MReturned.
Proof.
  unfold all_returned. intros [_ H]%andb_true_iff.
  by destruct (manager s).
Qed.

Lemma inv_err_step s l s' : inv_err s → step s l = Some s' → inv_err s'.
Proof.
  intros (Hfst & Hge & Hm & Hr & Hw) H.
  assert (∀ (h : list (@event Sig Hook)) e0 (r : option (@error Sig)),
    EvWait r ∈ h ++ [e0] → EvWait r ∈ h ∨ e0 = EvWait r) as Hsnoc.
  { intros h e0 r [?|?%list_elem_of_singleton]%elem_of_app; subst; auto. }
  assert (manager s ≠ MSelect → ctx_err s = None → False) as Hm'.
  { intros [? Hx]%Hm Hy. by rewrite Hy in Hx. }
  step_inv H; unfold inv_err; simpl in *;
    rewrite ?first_error_snoc; simpl.
  all: try rewrite <- Hfst.
  all: try (split_and!; try done).
  all: try (intros r [Hin|?]%Hsnoc; [|simplify_eq];
            destruct (Hw r Hin) as [-> Hs]; try done; by destruct Hs).
  all: try (intros _; first [by apply Hm | by apply Hge | by eauto]).
  all: try by destruct (first_error ops0).
  all: try by (exfalso; apply Hm').
  intros r [Hin|?]%Hsnoc; [by apply Hw|]. simplify_eq.
  split; [done|]. apply Hr. by apply all_returned_manager in H1.
Qed.

Lemma reachable_inv_err s : reachable s → inv_err s.
Proof.
  induction 1; [apply inv_err_new|by eapply inv_err_step].
Qed.

(** ** The shutdown goroutine and its queue *)

(** [funcs] changes only by the receive of the shutdown goroutine at its
    [select], which appends the function of the sending call. *)
Lemma step_funcs s l s' :
  step s l = Some s' →
  funcs s' = funcs s
  ∨ ∃ c f, l = LSend c ∧ manager s = MSelect
      ∧ calls s !! c = Some (f, OSelect) ∧ funcs s' = funcs s ++ [(c, f)].
Proof. intros H. step_inv H; eauto 10. Qed.

(** The queue only grows. *)
Lemma run_funcs_prefix s tr s' :
  run s tr = Some s' → funcs s `prefix_of` funcs s'.
Proof.
  revert s; induction tr as [|l tr IH]; intros s; simpl.
  - by intros [= <-].
  - destruct (step s l) as [s1|] eqn:Hs; [|done]. intros Hrun.
    etrans; [|by apply IH].
    destruct (step_funcs _ _ _ Hs) as [->|(c & f & _ & _ & _ & ->)]; [done|].
    by apply prefix_app_r.
Qed.


Lemma by_who_snoc w (h : list (@event Sig Hook)) e :
  by_who w (h ++ [e]) =
  by_who w h ++ (if decide (ev_who e = Some w) then [e] else []).
Proof.
  unfold by_who. by rewrite list.filter_app.
Qed.

Lemma of_call_snoc c (h : list (@event Sig Hook)) e :
  of_call c (h ++ [e]) =
  of_call c h ++ (if decide (ev_call e = Some c) then [e] else []).
Proof.
  unfold of_call. by rewrite list.filter_app.
Qed.

Lemma drained_snoc (q : list (nat * Hook)) c f :
  drained (Sig:=Sig) (q ++ [(c, f)]) =
  drained q ++ [EvStart ByManager c f; EvEnd ByManager c f].
Proof. unfold drained. by rewrite bind_app. Qed.

Lemma inv_mgr_new parent_err (sig : list Sig) :
  inv_mgr (NewService (Hook:=Hook) parent_err sig).
Proof. done. Qed.

Lemma inv_mgr_step s l s' : inv_mgr s → step s l = Some s' → inv_mgr s'.
Proof.
  intros Hi H.
  step_inv H; unfold inv_mgr in *; simpl in *;
    rewrite ?by_who_snoc; simpl; rewrite ?app_nil_r; try done.
  all: repeat match goal with
    | H : bool_decide _ = true |- _ => apply bool_decide_eq_true in H
    | H : bool_decide _ = false |- _ => apply bool_decide_eq_false in H
    end.
  - split; [lia|].
    replace (Z.to_nat _) with (length funcs0) by lia.
    by rewrite drop_all.
  - destruct Hi as [? Heq].
    match goal with H : _ !! _ = Some _ |- _ =>
      pose proof (lookup_lt_Some _ _ _ H) end.
    split; [lia|]. eexists _, _. split; [done|]. by rewrite Heq.
  - destruct Hi as [? (c & f & Hl & Heq)]. simplify_eq.
    split; [lia|].
    replace (Z.to_nat (i - 1 + 1)) with (Z.to_nat i) by lia.
    replace (Z.to_nat (i + 1)) with (S (Z.to_nat i)) in Heq by lia.
    rewrite (drop_S _ _ _ Hl), reverse_cons, drained_snoc, Heq.
    by rewrite <- app_assoc.
  - destruct Hi as [? ->]. by replace i with (-1)%Z by lia.
  - destruct Hi as [? ->]. by replace i with (-1)%Z by lia.
  - destruct Hi as [? ->]. by replace i with (-1)%Z by lia.
Qed.

Lemma reachable_inv_mgr s : reachable s → inv_mgr s.
Proof.
  induction 1; [apply inv_mgr_new|by eapply inv_mgr_step].
Qed.

(** What the shutdown goroutine has run is always an initial part of
    the reversed queue, run function by function. *)
Lemma inv_mgr_prefix s :
  inv_mgr s → by_who ByManager (ops s) `prefix_of` drained (reverse (funcs s)).
Proof.
  unfold inv_mgr. destruct (manager s) as [|i|i|].
  - intros ->. apply prefix_nil.
  - intros [? ->].
    rewrite <- (take_drop (Z.to_nat (i + 1)) (funcs s)) at 2.
    rewrite reverse_app. unfold drained. rewrite bind_app.
    apply prefix_app_r. done.
  - intros [? (c & f & Hl & ->)].
    rewrite <- (take_drop (Z.to_nat i) (funcs s)) at 2.
    rewrite (drop_S _ _ _ Hl), reverse_app, reverse_cons.
    unfold drained. rewrite !bind_app. simpl.
    replace (Z.to_nat (i + 1)) with (S (Z.to_nat i)) by lia.
    rewrite <- !app_assoc. apply prefix_app, prefix_cons, prefix_nil.
  - by intros ->.
Qed.

(** ** The calls of [OnShutdown] *)

Lemma inv_calls_new parent_err (sig : list Sig) :
  inv_calls (NewService (Hook:=Hook) parent_err sig).
Proof.
  split; simpl; [constructor|]. intros c. split; [done|]. apply not_elem_of_nil.
Qed.

Lemma inv_calls_step s l s' : inv_calls s → step s l = Some s' → inv_calls s'.
Proof.
  intros [Hnd Hc] H.
  step_inv H; unfold inv_calls in *; simpl in *;
    (split; [try done|
      intros c'; pose proof (Hc c') as Hc';
      rewrite ?of_call_snoc; simpl; rewrite ?app_nil_r; try done]).
  - (* a new call *)
    destruct ((calls0 ++ [(f, OSelect)]) !! c') as [[f' pc]|] eqn:E.
    + apply lookup_snoc_Some in E as [[? E]|[-> [= <- <-]]].
      * by rewrite E in Hc'.
      * by rewrite (lookup_ge_None_2 calls0 (length calls0)) in Hc' by lia.
    + apply lookup_ge_None in E. rewrite length_app in E. simpl in E.
      by rewrite (lookup_ge_None_2 calls0 c') in Hc' by lia.
  - (* the send: the queue grows by a call that was not queued *)
    specialize (Hc c). rewrite H0 in Hc. destruct Hc as [_ Hc].
    rewrite fmap_app. apply list.NoDup_app. split_and!; [done| |apply NoDup_singleton].
    by intros x Hx ->%list_elem_of_singleton.
  - specialize (Hc c). rewrite H0 in Hc. destruct Hc as [Hoc Hc].
    pose proof (lookup_lt_Some _ _ _ H0).
    destruct (decide (c' = c)) as [->|Hne].
    + rewrite list_lookup_insert_eq by done. right.
      rewrite Hoc. split; [|done]. apply elem_of_app; right. by left.
    + rewrite list_lookup_insert_ne by done.
      assert (c' ∉ funcs0.*1 → c' ∉ (funcs0 ++ [(c, h)]).*1) as Hnotin.
      { intros ?. rewrite fmap_app. apply not_elem_of_app. split; [done|].
        by intros ?%list_elem_of_singleton. }
      destruct (calls0 !! c') as [[f' [| |]]|]; try (destruct Hc'; split; by auto).
      destruct Hc' as [[? ?]|[? ?]]; [left; by auto|right].
      split; [|done]. apply elem_of_app; by left.
  - (* the caller starts its function *)
    specialize (Hc c). rewrite H0 in Hc. destruct Hc as [Hoc Hc].
    pose proof (lookup_lt_Some _ _ _ H0).
    destruct (decide (c' = c)) as [->|Hne].
    + rewrite list_lookup_insert_eq, decide_True, Hoc by done. done.
    + rewrite list_lookup_insert_ne, decide_False by congruence.
      destruct (calls0 !! c') as [[f' [| |]]|]; by rewrite ?app_nil_r.
  - (* the caller's function ends *)
    specialize (Hc c). rewrite H0 in Hc. destruct Hc as [Hoc Hc].
    pose proof (lookup_lt_Some _ _ _ H0).
    destruct (decide (c' = c)) as [->|Hne].
    + rewrite list_lookup_insert_eq, decide_True, Hoc by done. by left.
    + rewrite list_lookup_insert_ne, decide_False by congruence.
      destruct (calls0 !! c') as [[f' [| |]]|]; by rewrite ?app_nil_r.
  - (* the shutdown goroutine starts a queued function *)
    assert (n ∈ funcs0.*1) as Hin.
    { apply list_elem_of_fmap. exists (n, h). split; [done|].
      by eapply list_elem_of_lookup_2. }
    destruct (decide (c' = n)) as [->|Hne].
    + rewrite decide_True by done.
      destruct (calls0 !! n) as [[f' [| |]]|]; try (by destruct Hc').
      destruct Hc' as [[? ?]|[? Hbc]]; [done|right]. split; [done|].
      by rewrite by_who_snoc, Hbc.
    + rewrite decide_False by congruence.
      destruct (calls0 !! c') as [[f' [| |]]|]; by rewrite ?app_nil_r.
  - (* a queued function ends *)
    assert (n ∈ funcs0.*1) as Hin.
    { apply list_elem_of_fmap. exists (n, h). split; [done|].
      by eapply list_elem_of_lookup_2. }
    destruct (decide (c' = n)) as [->|Hne].
    + rewrite decide_True by done.
      destruct (calls0 !! n) as [[f' [| |]]|]; try (by destruct Hc').
      destruct Hc' as [[? ?]|[? Hbc]]; [done|right]. split; [done|].
      by rewrite by_who_snoc, Hbc.
    + rewrite decide_False by congruence.
      destruct (calls0 !! c') as [[f' [| |]]|]; by rewrite ?app_nil_r.
Qed.

Lemma reachable_inv_calls s : reachable s → inv_calls s.
Proof.
  induction 1; [apply inv_calls_new|by eapply inv_calls_step].
Qed.

(** ** Every shutdown function runs at most once *)

Lemma of_call_by_manager c (h : list (@event Sig Hook)) :
  by_who ByCaller (of_call c h) = [] →
  of_call c h = of_call c (by_who ByManager h).
Proof.
  unfold of_call, by_who. induction h as [|e h IH]; [done|].
  rewrite !filter_cons.
  destruct e as [[] c0 f|[] c0 f| |]; simpl;
    repeat (case_decide; simplify_eq/=; rewrite ?filter_cons; simpl);
    try done; try (by intros ?; f_equal; apply IH); try by apply IH.
Qed.

Lemma of_call_drained_notin c (q : list (nat * Hook)) :
  c ∉ q.*1 → of_call c (drained (Sig:=Sig) q) = [].
Proof.
  induction q as [|[c0 f0] q IH]; [done|].
  simpl. intros [Hne Hq]%not_elem_of_cons.
  unfold of_call, drained in *. simpl.
  rewrite !filter_cons. simpl. rewrite !decide_False by congruence. auto.
Qed.

Lemma of_call_drained c f (q : list (nat * Hook)) :
  NoDup q.*1 → (c, f) ∈ q →
  of_call c (drained (Sig:=Sig) q)
  = [EvStart ByManager c f; EvEnd ByManager c f].
Proof.
  induction q as [|[c0 f0] q IH]; [by intros _ ?%elem_of_nil|].
  simpl. intros [Hc0 Hnd]%list.NoDup_cons Hin. apply elem_of_cons in Hin as [[= <- <-]|Hin].
  - pose proof (of_call_drained_notin c q Hc0) as Hq.
    unfold of_call, drained in *. simpl.
    rewrite !filter_cons. simpl. rewrite !decide_True by done. by rewrite Hq.
  - assert (c ≠ c0) as Hne.
    { intros ->. apply Hc0, list_elem_of_fmap. by exists (c0, f). }
    specialize (IH Hnd Hin).
    unfold of_call, drained in *. simpl.
    rewrite !filter_cons. simpl. rewrite !decide_False by congruence. done.
Qed.

Lemma of_call_prefix c (h1 h2 : list (@event Sig Hook)) :
  h1 `prefix_of` h2 → of_call c h1 `prefix_of` of_call c h2.
Proof.
  intros [k ->]. unfold of_call. rewrite list.filter_app. by apply prefix_app_r.
Qed.


(** The history of one call of [OnShutdown], whatever the state. *)
Lemma call_history s c f pc :
  reachable s → calls s !! c = Some (f, pc) →
  match pc with
  | OSelect => of_call c (ops s) = []
  | OCall => of_call c (ops s) = [EvStart ByCaller c f]
  | OReturned =>
      (of_call c (ops s) = [EvStart ByCaller c f; EvEnd ByCaller c f]
       ∧ c ∉ (funcs s).*1)
      ∨ ((c, f) ∈ funcs s
         ∧ of_call c (ops s)
           `prefix_of` [EvStart ByManager c f; EvEnd ByManager c f])
  end.
Proof.
  intros Hr Hc.
  destruct (reachable_inv_calls s Hr) as [Hnd Hcalls].
  specialize (Hcalls c). rewrite Hc in Hcalls.
  destruct pc; try by destruct Hcalls.
  destruct Hcalls as [[? ?]|[Hin Hbc]]; [by left|right].
  split; [done|].
  rewrite (of_call_by_manager _ _ Hbc).
  rewrite <- (of_call_drained c f (reverse (funcs s))).
  - apply of_call_prefix, inv_mgr_prefix, reachable_inv_mgr, Hr.
  - by rewrite fmap_reverse, reverse_Permutation.
  - by apply elem_of_reverse.
Qed.



(** ** A service that nothing disturbs *)

Lemma up_new (sig : list Sig) : up (NewService (Hook:=Hook) None sig).
Proof. done. Qed.

Lemma up_step s l s' : up s → quiet l = true → step s l = Some s' → up s'.
Proof.
  intros (Hc & Hg & Hs & Hm) Hq H. step_inv H; unfold up; simpl in *; done.
Qed.

Lemma up_Wait s : up s → Wait s = None.
Proof.
  intros (_ & _ & _ & Hm). unfold Wait, all_returned. rewrite Hm. simpl.
  by rewrite andb_false_r.
Qed.

Lemma up_run s tr s' :
  up s → forallb quiet tr = true → run s tr = Some s' → up s' ∧ LWait ∉ tr.
Proof.
  revert s; induction tr as [|l tr IH]; intros s Hup; simpl.
  - intros _ [= <-]. split; [done|]. apply not_elem_of_nil.
  - intros [Hl Htr]%andb_true_iff.
    destruct (step s l) as [s1|] eqn:Hs; [|done]. intros Hrun.
    destruct (IH s1 (up_step _ _ _ Hup Hl Hs) Htr Hrun) as [? ?].
    split; [done|]. apply not_elem_of_cons. split; [|done].
    intros <-. simpl in Hs. unfold wait_step in Hs.
    by rewrite (up_Wait s Hup) in Hs.
Qed.

(** ** Before the cancellation *)

Lemma hook_events_snoc (h : list (@event Sig Hook)) e :
  hook_events (h ++ [e]) =
  hook_events h ++ (if decide (is_Some (ev_who e)) then [e] else []).
Proof. unfold hook_events. by rewrite list.filter_app. Qed.

Lemma inv_idle_new parent_err (sig : list Sig) :
  inv_idle (NewService (Hook:=Hook) parent_err sig).
Proof. intros _. split_and!; [done..|]. intros c f pc. simpl. by rewrite lookup_nil. Qed.

Lemma inv_idle_step s l s' : inv_idle s → step s l = Some s' → inv_idle s'.
Proof.
  intros Hi H Hctx'.
  assert (ctx_err s = None) as Hctx.
  { destruct (ctx_err s) as [e|] eqn:He; [|done].
    by rewrite (step_ctx_err _ _ _ e H He) in Hctx'. }
  destruct (Hi Hctx) as (Hm & Hh & Hc). clear Hi.
  step_inv H; simpl in *; rewrite ?hook_events_snoc; simpl;
    rewrite ?app_nil_r; try done; (split_and!; try done).
  - intros c f0 pc [[? Hl]|[-> [= <- <-]]]%lookup_snoc_Some; eauto.
  - intros c0 f pc Hl. destruct (decide (c0 = c)) as [->|Hne].
    + rewrite list_lookup_insert_eq in Hl by (by eapply lookup_lt_Some).
      simplify_eq. right. split; [done|]. apply elem_of_app; right. by left.
    + rewrite list_lookup_insert_ne in Hl by done.
      destruct (Hc _ _ _ Hl) as [?|[? ?]]; [by left|right].
      split; [done|]. apply elem_of_app; by left.
  - match goal with H : calls0 !! _ = Some (_, OCall) |- _ =>
      by destruct (Hc _ _ _ H) as [?|[? ?]] end.
  - match goal with H : calls0 !! _ = Some (_, OCall) |- _ =>
      by destruct (Hc _ _ _ H) as [?|[? ?]] end.
Qed.

Lemma reachable_inv_idle s : reachable s → inv_idle s.
Proof.
  induction 1; [apply inv_idle_new|by eapply inv_idle_step].
Qed.

(** ** The signal goroutine *)

Lemma notify_new parent_err (sig : list Sig) :
  notify (NewService (Hook:=Hook) parent_err sig) = sig.
Proof. simpl. case_bool_decide; [done|]. destruct sig; simpl in *; [done|lia]. Qed.

Lemma step_bridge_started s l s' :
  step s l = Some s' →
  notify s' = notify s ∧ (is_Some (bridge s') ↔ is_Some (bridge s)).
Proof.
  intros H. step_inv H; split; try done; split; intros ?; by eauto.
Qed.

Lemma run_bridge_started s tr s' :
  run s tr = Some s' →
  notify s' = notify s ∧ (is_Some (bridge s') ↔ is_Some (bridge s)).
Proof.
  revert s; induction tr as [|l tr IH]; intros s; simpl.
  - by intros [= <-].
  - destruct (step s l) as [s1|] eqn:Hs; [|done]. intros Hrun.
    destruct (IH _ Hrun) as [-> ->]. by eapply step_bridge_started.
Qed.

(** A signal in the buffer was delivered by the system and is one of
    the registered signals. *)
Lemma step_sigC s l s' x :
  step s l = Some s' → sigC s' = Some x →
  sigC s = Some x ∨ (l = LSignal x ∧ x ∈ notify s).
Proof.
  intros H Hx. step_inv H; auto.
  all: case_bool_decide; simpl in *; simplify_eq; auto.
  all: destruct sigC0; simpl in *; simplify_eq; auto.
Qed.

Lemma run_sigC s tr s' x :
  run s tr = Some s' → sigC s' = Some x →
  sigC s = Some x ∨ (LSignal x ∈ tr ∧ x ∈ notify s).
Proof.
  revert s; induction tr as [|l tr IH]; intros s; simpl.
  - intros [= <-]. auto.
  - destruct (step s l) as [s1|] eqn:Hs; [|done]. intros Hrun Hx.
    destruct (step_bridge_started _ _ _ Hs) as [Hn _].
    destruct (IH _ Hrun Hx) as [H1|[? ?]].
    + destruct (step_sigC _ _ _ _ Hs H1) as [?|[-> ?]]; [by left|right].
      split; [by left|done].
    + right. split; [by right|by rewrite <- Hn].
Qed.

(** ** After the shutdown goroutine has left its [select] *)




(** The queue holds the functions of calls that have returned. *)
Lemma funcs_calls s c f :
  reachable s → (c, f) ∈ funcs s → calls s !! c = Some (f, OReturned).
Proof.
  intros Hr Hin. destruct (reachable_inv_calls s Hr) as [Hnd Hc].
  assert (c ∈ (funcs s).*1) as Hin1.
  { apply list_elem_of_fmap. by exists (c, f). }
  specialize (Hc c).
  destruct (calls s !! c) as [[f' [| |]]|]; try by destruct Hc.
  destruct Hc as [[_ ?]|[Hin' _]]; [done|].
  apply list_elem_of_lookup in Hin as [i Hi], Hin' as [j Hj].
  assert (i = j); [|by simplify_eq].
  eapply NoDup_lookup; [done| |]; rewrite list_lookup_fmap.
  - by rewrite Hi.
  - by rewrite Hj.
Qed.

(** ** The order of execution *)

Lemma executed_by_manager (h : list (@event Sig Hook)) :
  executed h = executed (by_who ByManager h).
Proof.
  unfold executed, by_who. induction h as [|e h IH]; [done|].
  rewrite filter_cons.
  destruct e as [[] c f|[] c f| |]; simpl;
    repeat (case_decide; simplify_eq/=); try done; by f_equal.
Qed.

Lemma executed_drained (q : list (nat * Hook)) :
  executed (drained (Sig:=Sig) q) = q.
Proof.
  induction q as [|[c f] q IH]; [done|].
  unfold executed, drained in *. simpl. by f_equal.
Qed.

Lemma forallb_task_returned (ts : list (@task_pc Sig)) :
  forallb task_returned ts = true ↔ Forall (λ t, t ≠ TRunning) ts.
Proof.
  induction ts as [|t ts IH]; simpl; [by split; [constructor|]|].
  rewrite andb_true_iff, list.Forall_cons, IH. destruct t; simpl; intuition congruence.
Qed.

(** What a call of [Wait] that returns has waited for. *)
Lemma Wait_Some s r :
  Wait s = Some r →
  r = g_err s
  ∧ Forall (λ t, t ≠ TRunning) (tasks s)
  ∧ bridge s ≠ Some BSelect
  ∧ manager s = MReturned.
Proof.
  unfold Wait, all_returned.
  destruct (forallb task_returned (tasks s)) eqn:Ht; [|done].
  apply forallb_task_returned in Ht.
  destruct (bridge s) as [[]|], (manager s); simpl; try done;
    by intros [= <-].
Qed.

(** ** Properties of the service *)

(** C7.  For every signal value [x], the [Error] method of a
    [SignalError] holding [x] returns exactly the string "received "
    followed by the signal's own description [x.String()]; the same
    string is what the [error] interface shows. *)
Theorem SignalError_Error (Signal_String : Sig → string) (x : Sig) :
  Error Signal_String {| Signal := x |} = "received " +:+ Signal_String x
  ∧ error_Error Signal_String (ESignal {| Signal := x |})
    = "received " +:+ Signal_String x.
Proof. done. Qed.


(** C5.  [Wait] blocks until every goroutine of the group (every
    function given to [Go], the signal goroutine when there is one, the
    shutdown goroutine) has returned; what it returns is the retained
    error, the first non-nil error a member returned; and the slot it
    reads is nil as long as no task has failed and the context has not
    been cancelled. *)
Theorem Wait_joins s :
  reachable s →
  (is_Some (Wait s) ↔
     Forall (λ t, t ≠ TRunning) (tasks s)
     ∧ bridge s ≠ Some BSelect
     ∧ manager s = MReturned)
  ∧ (∀ r, Wait s = Some r → r = g_err s ∧ r = first_error (ops s))
  ∧ ((∀ t e, tasks s !! t = Some (TReturned e) → e = None) →
     ctx_err s = None → g_err s = None).
Proof.
  intros Hr. destruct (reachable_inv_err s Hr) as (Hfst & Hge & _ & _ & _).
  split_and!.
  - unfold Wait, all_returned.
    rewrite <- forallb_task_returned.
    split.
    + intros [r Hw].
      destruct (forallb _ _), (bridge s) as [[]|], (manager s);
        simpl in *; try done.
    + intros (-> & Hb & ->). simpl.
      destruct (bridge s) as [[]|]; simpl; try done; eauto.
  - unfold Wait. intros r. rewrite <- Hfst.
    by destruct (all_returned s); intros [= <-].
  - intros _ Hctx. destruct (g_err s) eqn:Hg; [|done].
    destruct Hge as [? Hx]; [by eauto|]. by rewrite Hctx in Hx.
Qed.

(** C9.  Whenever [Wait] returns, the error it returns is non-nil: the
    shutdown goroutine, which [Wait] joins, returns the error of the
    cancelled context, so the slot is filled before [Wait] can return. *)
Theorem Wait_returns_an_error s r :
  reachable s → Wait s = Some r → is_Some r.
Proof.
  intros Hr. destruct (reachable_inv_err s Hr) as (_ & _ & _ & Hm & _).
  unfold Wait. destruct (all_returned s) eqn:Ha; [|done].
  intros [= <-]. by apply Hm, all_returned_manager.
Qed.

(** C8.  In an execution in which no task fails, no signal arrives and
    the parent context is not cancelled, no call of [Wait] returns, and
    [Wait] is still blocked at the end; in any execution, [Wait] can
    return only from a state in which the shared context is cancelled. *)
Theorem Wait_needs_cancellation parent_err sig tr s :
  run (NewService parent_err sig) tr = Some s →
  (parent_err = None → forallb quiet tr = true →
     (LWait ∉ tr) ∧ Wait s = None ∧ ctx_err s = None)
  ∧ (is_Some (Wait s) → is_Some (ctx_err s)).
Proof.
  intros Hrun. split.
  - intros -> Hq.
    destruct (up_run _ _ _ (up_new sig) Hq Hrun) as [Hup ?].
    split_and!; [done|by apply up_Wait|by destruct Hup].
  - pose proof (run_new_reachable _ _ _ _ Hrun) as Hr.
    destruct (reachable_inv_err s Hr) as (_ & _ & Hm & _ & _).
    unfold Wait. destruct (all_returned s) eqn:Ha; [|by intros [? [=]]].
    intros _. apply Hm. by rewrite (all_returned_manager s Ha).
Qed.

(** C10.  As long as the shared context is not cancelled, no function
    registered with [OnShutdown] has been started, by anyone; the
    function of every call that has returned is in the queue of the
    shutdown goroutine; no call is running its function; and a call that
    still waits can hand its function over, which appends it to the
    queue. *)
Theorem hooks_wait_for_cancellation s :
  reachable s → ctx_err s = None →
  hook_events (ops s) = []
  ∧ manager s = MSelect
  ∧ (∀ c f pc, calls s !! c = Some (f, pc) → pc ≠ OCall)
  ∧ (∀ c f, calls s !! c = Some (f, OReturned) → (c, f) ∈ funcs s)
  ∧ (∀ c f, calls s !! c = Some (f, OSelect) →
       step s (LCallerDone c) = None
       ∧ ∃ s', step s (LSend c) = Some s'
           ∧ funcs s' = funcs s ++ [(c, f)]
           ∧ calls s' !! c = Some (f, OReturned)
           ∧ ops s' = ops s).
Proof.
  intros Hr Hctx. destruct (reachable_inv_idle s Hr Hctx) as (Hm & Hh & Hc).
  split_and!; [done..| | |].
  - intros c f pc Hl ->. by destruct (Hc _ _ _ Hl) as [?|[? ?]].
  - intros c f Hl. by destruct (Hc _ _ _ Hl) as [?|[? ?]].
  - intros c f Hl. simpl. rewrite Hl, Hm, Hctx. split; [done|].
    eexists. split; [done|]. simpl. split_and!; try done.
    apply list_lookup_insert_eq. by eapply lookup_lt_Some.
Qed.

(** C6.  The signal goroutine exists if and only if at least one signal
    was given to [NewService].  When it returns through its
    [ctx.Done()] case the context is cancelled and it returns the
    context's error; when it returns through its [sigC] case it returns
    a [SignalError] holding the signal it received, which is a
    registered signal that the system delivered.  While it waits, the
    first case can be taken exactly when the context is cancelled and
    the second exactly when a signal is in the channel. *)
Theorem signal_bridge parent_err sig tr s :
  run (NewService parent_err sig) tr = Some s →
  (is_Some (bridge s) ↔ 0 < length sig)
  ∧ (∀ s', step s LBridgeDone = Some s' →
       ∃ e, ctx_err s = Some e
         ∧ bridge s' = Some BReturned
         ∧ ops s' = ops s ++ [EvExit MBridge (Some e)])
  ∧ (∀ s', step s LBridgeSig = Some s' →
       ∃ x, sigC s = Some x ∧ x ∈ sig ∧ LSignal x ∈ tr
         ∧ bridge s' = Some BReturned
         ∧ ops s' = ops s ++ [EvExit MBridge (Some (ESignal {| Signal := x |}))])
  ∧ (bridge s = Some BSelect →
       (is_Some (step s LBridgeDone) ↔ is_Some (ctx_err s))
       ∧ (is_Some (step s LBridgeSig) ↔ is_Some (sigC s))).
Proof.
  intros Hrun.
  destruct (run_bridge_started _ _ _ Hrun) as [Hn Hb].
  rewrite notify_new in Hn.
  split_and!.
  - rewrite Hb. simpl. by case_bool_decide.
  - intros s' H. step_inv H; eauto.
  - intros s' H.
    assert (∃ x, sigC s = Some x) as [x Hx].
    { step_inv H; eauto. }
    exists x. destruct (run_sigC _ _ _ _ Hrun Hx) as [[=]|[? Hin]].
    rewrite notify_new in Hin. split_and!; try done.
    all: step_inv H; done.
  - intros Hbs. simpl. unfold bridge_step. rewrite Hbs.
    split; [destruct (ctx_err s)|destruct (sigC s)]; split;
      first [by eauto | by intros [? [=]]].
Qed.

(** A task that has returned keeps its result. *)
Lemma step_tasks s l s' t e :
  step s l = Some s' → tasks s !! t = Some (TReturned e) →
  tasks s' !! t = Some (TReturned e).
Proof.
  intros H Ht. step_inv H; try done.
  all: try (rewrite list_lookup_insert_ne; [done|]; by intros ->; simplify_eq).
  rewrite lookup_app_l; [done|]. by eapply lookup_lt_Some.
Qed.

Lemma run_tasks s tr s' t e :
  run s tr = Some s' → tasks s !! t = Some (TReturned e) →
  tasks s' !! t = Some (TReturned e).
Proof.
  revert s; induction tr as [|l tr IH]; intros s; simpl.
  - by intros [= <-].
  - destruct (step s l) as [s1|] eqn:Hs; [|done]. intros Hrun Ht.
    eapply IH; [done|]. by eapply step_tasks.
Qed.

Lemma step_task_fails s t E s' :
  step s (LTaskReturn t (Some E)) = Some s' →
  g_err s = None → g_err s' = Some E.
Proof.
  simpl. unfold task_step. destruct (tasks s !! t) as [[]|]; try done.
  intros [= <-] Hg. unfold g_done, cancel. simpl. rewrite Hg.
  by destruct (ctx_err s).
Qed.

(** C1 (amended).  For any set of tasks given to [Go] in which a task
    returns the non-nil error [E], if before that return no task has
    failed, no signal was delivered and the parent context was not
    cancelled, then a call of [Wait] that returns, returns [E], and by
    then every task, the signal goroutine if there is one and the
    shutdown goroutine have returned. *)
Theorem first_failure_wins sig tr1 t E tr2 s r :
  run (NewService None sig) (tr1 ++ LTaskReturn t (Some E) :: tr2) = Some s →
  forallb quiet tr1 = true →
  Wait s = Some r →
  r = Some E
  ∧ Forall (λ t, t ≠ TRunning) (tasks s)
  ∧ bridge s ≠ Some BSelect
  ∧ manager s = MReturned
  ∧ tasks s !! t = Some (TReturned (Some E)).
Proof.
  rewrite run_app. intros Hrun Hq Hw.
  destruct (run (NewService None sig) tr1) as [s1|] eqn:H1; [|done].
  simpl in Hrun.
  destruct (task_step t (Some E) s1) as [s2|] eqn:H2'; [|done].
  assert (step s1 (LTaskReturn t (Some E)) = Some s2) as H2 by done.
  destruct (up_run _ _ _ (up_new sig) Hq H1) as [(_ & Hg & _ & _) _].
  assert (reachable s) as Hr.
  { eapply run_reachable; [|done]. eapply reachable_step; [|exact H2].
    by eapply run_new_reachable. }
  pose proof (run_g_err _ _ _ _ Hrun (step_task_fails _ _ _ _ H2 Hg)) as HE.
  destruct (Wait_Some s r Hw) as (-> & ? & ? & ?).
  split_and!; try done.
  (* the task keeps the error it returned *)
  clear -H2' Hrun.
  assert (tasks s2 !! t = Some (TReturned (Some E))) as Ht.
  { rename H2' into H2. unfold task_step in H2. destruct (tasks s1 !! t) as [[]|] eqn:Hl; try done.
    simplify_eq. unfold g_done, cancel. simpl.
    repeat case_match; simpl; apply list_lookup_insert_eq;
      by eapply lookup_lt_Some. }
  by eapply run_tasks.
Qed.

(** ** After the cancellation *)

(** Once the context is cancelled nothing is handed over any more. *)
Lemma step_funcs_cancelled s l s' :
  is_Some (ctx_err s) → step s l = Some s' → funcs s' = funcs s.
Proof. intros [e He] H. step_inv H; done. Qed.

Lemma run_funcs_cancelled s tr s' :
  is_Some (ctx_err s) → run s tr = Some s' → funcs s' = funcs s.
Proof.
  revert s; induction tr as [|l tr IH]; intros s Hctx; simpl.
  - by intros [= <-].
  - destruct (step s l) as [s1|] eqn:Hs; [|done]. intros Hrun.
    rewrite (IH s1); [by eapply step_funcs_cancelled| |done].
    destruct Hctx as [e He]. exists e. by eapply step_ctx_err.
Qed.

(** The inner loop of the shutdown goroutine runs to its end. *)
Lemma manager_loop_returns n s i :
  manager s = MLoop i → Z.to_nat (i + 1) = n →
  (-1 ≤ i < Z.of_nat (length (funcs s)))%Z →
  ∃ tr s', run s tr = Some s' ∧ manager s' = MReturned.
Proof.
  revert s i; induction n as [|n IH]; intros s i Hm Hn Hi.
  - exists [LMgrExit]. simpl. rewrite Hm.
    rewrite bool_decide_eq_false_2 by lia.
    eexists; split; [done|]. unfold g_done, cancel. simpl.
    by repeat case_match.
  - destruct (lookup_lt_is_Some_2 (funcs s) (Z.to_nat i)) as [[c f] Hl]; [lia|].
    destruct (IH (log (EvEnd ByManager c f) (set_manager (MLoop (i - 1))
                   (log (EvStart ByManager c f) (set_manager (MCall i) s))))
                 (i - 1)%Z) as (tr & s' & Hrun & Hs'); [done|lia|simpl; lia|].
    exists (LMgrCall :: LMgrRet :: tr), s'. split; [|done].
    simpl. rewrite Hm. rewrite bool_decide_eq_true_2 by lia.
    rewrite Hl. simpl. by rewrite Hl.
Qed.

(** On a cancelled context the shutdown goroutine can always run to its
    return. *)
Lemma manager_returns s :
  reachable s → is_Some (ctx_err s) →
  ∃ tr s', run s tr = Some s' ∧ manager s' = MReturned.
Proof.
  intros Hr [e He]. pose proof (reachable_inv_mgr s Hr) as Hm.
  unfold inv_mgr in Hm. destruct (manager s) as [|i|i|] eqn:Hs.
  - destruct (manager_loop_returns (length (funcs s))
                (set_manager (MLoop (Z.of_nat (length (funcs s)) - 1)) s)
                (Z.of_nat (length (funcs s)) - 1)%Z)
      as (tr & s' & Hrun & Hs'); [done|lia|simpl; lia|].
    exists (LMgrDone :: tr), s'. split; [|done]. simpl. by rewrite Hs, He.
  - destruct Hm as [Hi _]. by eapply manager_loop_returns.
  - destruct Hm as (Hi & c & f & Hl & _).
    destruct (manager_loop_returns (Z.to_nat i)
                (log (EvEnd ByManager c f) (set_manager (MLoop (i - 1)) s))
                (i - 1)%Z)
      as (tr & s' & Hrun & Hs'); [done|lia|simpl; lia|].
    exists (LMgrRet :: tr), s'. split; [|done]. simpl. by rewrite Hs, Hl.
  - by exists [], s.
Qed.

(** C3.  Let [s1] be a state in which the shared context is not yet
    cancelled, let the next step cancel it, and let [s] be any later
    state.  The queue never lost an entry on the way to [s1] (it is
    append-only before the cancellation); in [s1] it holds exactly the
    functions of the calls of [OnShutdown] that have returned, in the
    order in which they were handed over, and none of them has run; it
    is the same in [s] and no step changes it any more (it is frozen
    afterwards).  The shutdown goroutine runs the functions of that
    queue one at a time, each to its end before the next starts, last
    registered first: its history in [s] is an initial part of the
    reversed queue run function by function, and the whole of it once
    the goroutine has returned; and from [s] the goroutine can always
    run on to its return. *)
Theorem hooks_run_in_reverse s1 l s2 tr s :
  reachable s1 → ctx_err s1 = None →
  step s1 l = Some s2 → is_Some (ctx_err s2) →
  run s2 tr = Some s →
  (∀ s0 tr0, run s0 tr0 = Some s1 → funcs s0 `prefix_of` funcs s1)
  ∧ (∀ c f, (c, f) ∈ funcs s1 ↔ calls s1 !! c = Some (f, OReturned))
  ∧ hook_events (ops s1) = []
  ∧ funcs s = funcs s1
  ∧ (∀ l' s', step s l' = Some s' → funcs s' = funcs s)
  ∧ by_who ByManager (ops s) `prefix_of` drained (reverse (funcs s1))
  ∧ (manager s = MReturned →
       by_who ByManager (ops s) = drained (reverse (funcs s1))
       ∧ executed (ops s) = reverse (funcs s1))
  ∧ (∃ tr' s', run s tr' = Some s' ∧ manager s' = MReturned
       ∧ executed (ops s') = reverse (funcs s1)).
Proof.
  intros Hr1 Hctx1 Hstep Hctx2 Hrun.
  assert (reachable s2) as Hr2 by (by eapply reachable_step).
  assert (reachable s) as Hr by (by eapply run_reachable).
  assert (is_Some (ctx_err s)) as Hctx.
  { destruct Hctx2 as [e He]. exists e. by eapply run_ctx_err. }
  destruct (reachable_inv_idle s1 Hr1 Hctx1) as (_ & Hh & Hc).
  assert (funcs s2 = funcs s1) as Hf2.
  { destruct (step_funcs _ _ _ Hstep) as [?|(c & f & -> & _)]; [done|].
    destruct Hctx2 as [e He]. exfalso. step_inv Hstep. }
  assert (funcs s = funcs s1) as Hf.
  { rewrite <- Hf2. by eapply run_funcs_cancelled. }
  assert (∀ s', reachable s' → funcs s' = funcs s1 → manager s' = MReturned →
            by_who ByManager (ops s') = drained (reverse (funcs s1))
            ∧ executed (ops s') = reverse (funcs s1)) as Hret.
  { intros s' Hr' Hf' Hs'. pose proof (reachable_inv_mgr s' Hr') as Hm.
    unfold inv_mgr in Hm. rewrite Hs', Hf' in Hm. split; [done|].
    by rewrite executed_by_manager, Hm, executed_drained. }
  split_and!; try done.
  - intros s0 tr0. apply run_funcs_prefix.
  - intros c f. split; [by apply funcs_calls|].
    intros Hl. by destruct (Hc _ _ _ Hl) as [?|[? ?]].
  - intros l' s'. by apply step_funcs_cancelled.
  - rewrite <- Hf. by apply inv_mgr_prefix, reachable_inv_mgr.
  - by apply Hret.
  - destruct (manager_returns s Hr Hctx) as (tr' & s' & Hrun' & Hs').
    exists tr', s'. split_and!; [done..|].
    apply Hret; [by eapply run_reachable| |done].
    rewrite <- Hf. by eapply run_funcs_cancelled.
Qed.


(** ** Further properties *)

(** X1.  The function of every call of [OnShutdown] is run by at most
    one party (the caller or the shutdown goroutine), at most once, and
    it starts before it ends. *)
Theorem hook_runs_once s c f pc :
  reachable s → calls s !! c = Some (f, pc) →
  ∃ w, of_call c (ops s) `prefix_of` [EvStart w c f; EvEnd w c f].
Proof.
  intros Hr Hc. pose proof (call_history s c f pc Hr Hc) as Hh.
  destruct pc.
  - exists ByCaller. rewrite Hh. apply prefix_nil.
  - exists ByCaller. rewrite Hh. by apply prefix_cons, prefix_nil.
  - destruct Hh as [[-> _]|[_ ?]]; [by exists ByCaller|by exists ByManager].
Qed.

(** X2.  When [Wait] returns, the function of every call of
    [OnShutdown] that has returned has run to its end, exactly once. *)
Theorem Wait_waits_for_hooks s c f :
  reachable s → is_Some (Wait s) →
  calls s !! c = Some (f, OReturned) →
  ∃ w, of_call c (ops s) = [EvStart w c f; EvEnd w c f].
Proof.
  intros Hr [r Hw] Hc.
  destruct (Wait_Some s r Hw) as (_ & _ & _ & Hm).
  destruct (reachable_inv_calls s Hr) as [Hnd Hcs].
  specialize (Hcs c). rewrite Hc in Hcs.
  destruct Hcs as [[? _]|[Hin Hbc]]; [by exists ByCaller|].
  exists ByManager. rewrite (of_call_by_manager _ _ Hbc).
  pose proof (reachable_inv_mgr s Hr) as Hi. unfold inv_mgr in Hi.
  rewrite Hm in Hi. rewrite Hi. apply of_call_drained.
  - by rewrite fmap_reverse, reverse_Permutation.
  - by apply elem_of_reverse.
Qed.

Lemma hooks_after_failure_snoc (h : list (@event Sig Hook)) e :
  hooks_after_failure h →
  (is_Some (ev_who e) → is_Some (first_error h)) →
  hooks_after_failure (h ++ [e]).
Proof.
  intros Hh He i e' [[Hi Hl]|[-> <-]]%lookup_snoc_Some Hw.
  - rewrite take_app_le by lia. by eapply Hh.
  - rewrite take_app_length. by apply He.
Qed.

(** The context is cancelled by a failure, if the parent does not
    cancel it. *)
Lemma step_hooks_after_failure s l s' :
  reachable s → not_parent_cancel l = true → step s l = Some s' →
  (is_Some (ctx_err s) → is_Some (first_error (ops s))) →
  hooks_after_failure (ops s) →
  (is_Some (ctx_err s') → is_Some (first_error (ops s')))
  ∧ hooks_after_failure (ops s').
Proof.
  intros Hr Hl H Hctx Hh.
  destruct (reachable_inv_err s Hr) as (_ & _ & Hm & _ & _).
  pose proof (reachable_inv_idle s Hr) as Hi.
  step_inv H; simpl in *; rewrite ?first_error_snoc.
  all: split; try done.
  all: try (apply hooks_after_failure_snoc; [done|]; simpl).
  all: try (intros _; by destruct (first_error _)).
  all: try (intros Hx; destruct (Hctx Hx) as [? ->]; by eauto).
  all: try (by intros [? [=]]).
  all: try (intros _; apply Hctx; first [by eauto | by apply Hm]).
  intros _. apply Hctx. destruct ctx_err0; [by eauto|].
  destruct (Hi eq_refl) as (_ & _ & Hc).
  match goal with H : _ !! _ = Some (_, OCall) |- _ =>
    by destruct (Hc _ _ _ H) as [?|[? ?]] end.
Qed.

(** X3.  If the parent context is not cancelled, no shutdown function
    starts (or ends) before a member of the group has returned a
    non-nil error: in the history, every event of a shutdown function
    comes after such a return.  This is what [TestOnShutdown] checks
    with its first recorded operation. *)
Theorem no_hook_before_failure sig tr s :
  run (NewService None sig) tr = Some s →
  forallb not_parent_cancel tr = true →
  hooks_after_failure (ops s).
Proof.
  intros Hrun Hq.
  cut ((is_Some (ctx_err s) → is_Some (first_error (ops s)))
       ∧ hooks_after_failure (ops s)); [by intros [_ ?]|].
  assert (reachable (NewService (Hook:=Hook) None sig)) as Hr0 by constructor.
  assert ((is_Some (ctx_err (NewService (Hook:=Hook) None sig)) →
             is_Some (first_error (ops (NewService (Hook:=Hook) None sig))))
          ∧ hooks_after_failure (ops (NewService (Hook:=Hook) None sig))) as H0.
  { split; [by intros [? [=]]|]. intros i e. simpl. by rewrite lookup_nil. }
  revert Hrun Hq Hr0 H0. generalize (NewService (Hook:=Hook) None sig) as s0.
  induction tr as [|l tr IH]; intros s0; simpl.
  - by intros [= <-].
  - destruct (step s0 l) as [s1|] eqn:Hs; [|done].
    intros Hrun [Hl Htr]%andb_true_iff Hr0 [Hc0 Hh0].
    apply (IH s1); [done..|by eapply reachable_step|].
    by eapply step_hooks_after_failure.
Qed.

(** ** [Wait], again *)

Lemma Wait_intro s :
  Forall (λ t, t ≠ TRunning) (tasks s) →
  bridge s ≠ Some BSelect → manager s = MReturned →
  Wait s = Some (g_err s).
Proof.
  unfold Wait, all_returned. intros Ht%forallb_task_returned Hb ->.
  rewrite Ht. by destruct (bridge s) as [[]|].
Qed.

Lemma step_Wait s l s' r :
  Wait s = Some r → not_Go l = true → step s l = Some s' →
  Wait s' = Some r.
Proof.
  intros Hw Hl H.
  destruct (Wait_Some s r Hw) as (-> & Ht & Hb & Hm).
  assert (g_err s' = g_err s ∧ tasks s' = tasks s
          ∧ bridge s' = bridge s ∧ manager s' = manager s)
    as (<- & Ht' & Hb' & Hm').
  { rewrite list.Forall_lookup in Ht.
    step_inv H; try done.
    all: match goal with H : _ !! _ = Some TRunning |- _ =>
      by destruct (Ht _ _ H) end. }
  apply Wait_intro; congruence.
Qed.

(** X4.  Once [Wait] has returned an error, every later call of [Wait]
    returns the same error, whatever happens in between, as long as no
    new task is given to [Go]. *)
Theorem Wait_again s r tr s' :
  Wait s = Some r → forallb not_Go tr = true → run s tr = Some s' →
  Wait s' = Some r.
Proof.
  revert s; induction tr as [|l tr IH]; intros s Hw; simpl.
  - by intros _ [= <-].
  - intros [Hl Htr]%andb_true_iff.
    destruct (step s l) as [s1|] eqn:Hs; [|done].
    apply IH; [by eapply step_Wait|done].
Qed.

(** ** After the shutdown *)






(** X8.  Of two functions registered one after the other (the first
    call of [OnShutdown] has handed its function over before the second
    call is made), the one registered later runs earlier: once the
    shutdown goroutine has returned, the later function stands before
    the earlier one in the order of execution. *)
Theorem registered_later_runs_earlier s c1 f1 f2 s1 tr s' :
  reachable s →
  (c1, f1) ∈ funcs s →
  step s (LOnShutdown f2) = Some s1 →
  run s1 tr = Some s' →
  (length (calls s), f2) ∈ funcs s' →
  manager s' = MReturned →
  ∃ i j, j < i
    ∧ executed (ops s') !! j = Some (length (calls s), f2)
    ∧ executed (ops s') !! i = Some (c1, f1).
Proof.
  intros Hr Hin1 Hstep Hrun Hin2 Hm'. set (c2 := length (calls s)) in *.
  assert (reachable s') as Hr'.
  { eapply run_reachable; [|done]. by eapply reachable_step. }
  assert (funcs s1 = funcs s) as Hf1 by (simpl in Hstep; by simplify_eq).
  pose proof (run_funcs_prefix _ _ _ Hrun) as Hpre. rewrite Hf1 in Hpre.
  apply list_elem_of_lookup in Hin1 as [a Ha], Hin2 as [b Hb].
  pose proof (prefix_lookup_Some _ _ _ _ Ha Hpre) as Ha'.
  pose proof (lookup_lt_Some _ _ _ Ha) as Hla.
  pose proof (lookup_lt_Some _ _ _ Hb) as Hlb.
  assert (length (funcs s) ≤ b) as Hle.
  { destruct (decide (b < length (funcs s))) as [Hlt|]; [|lia].
    rewrite <- (prefix_lookup_lt _ _ _ Hlt Hpre) in Hb.
    assert (calls s !! c2 = None) as Hnone by (by apply lookup_ge_None_2).
    destruct (reachable_inv_calls s Hr) as [_ Hcs].
    specialize (Hcs c2). rewrite Hnone in Hcs. destruct Hcs as [_ Hnotin].
    destruct Hnotin. apply list_elem_of_fmap. exists (c2, f2).
    split; [done|]. by eapply list_elem_of_lookup_2. }
  pose proof (reachable_inv_mgr s' Hr') as Hi. unfold inv_mgr in Hi.
  rewrite Hm' in Hi.
  assert (executed (ops s') = reverse (funcs s')) as ->.
  { by rewrite executed_by_manager, Hi, executed_drained. }
  exists (length (funcs s') - S a), (length (funcs s') - S b).
  split; [lia|]. rewrite !reverse_lookup by lia.
  replace (length (funcs s') - S (length (funcs s') - S b)) with b by lia.
  replace (length (funcs s') - S (length (funcs s') - S a)) with a by lia.
  done.
Qed.

(** ** Which signal is reported *)

Lemma first_signal_snoc (sig : list Sig) tr l :
  first_signal sig (tr ++ [l]) =
  match first_signal sig tr with
  | Some x => Some x
  | None => registered_signal sig l
  end.
Proof.
  unfold first_signal. rewrite omap_app. simpl.
  destruct (omap (registered_signal sig) tr); simpl;
    [by destruct (registered_signal sig l)|done].
Qed.

(** The signal goroutine does not come back to its [select]. *)
Lemma step_bridge_select s l s' :
  step s l = Some s' → bridge s' = Some BSelect → bridge s = Some BSelect.
Proof. intros H Hb. step_inv H; done. Qed.

(** While the signal goroutine is at its [select], the channel holds
    the first registered signal that was delivered. *)
Lemma run_first_signal parent_err sig tr s :
  run (NewService parent_err sig) tr = Some s →
  bridge s = Some BSelect →
  sigC s = first_signal sig tr.
Proof.
  revert s; induction tr as [|l tr IH] using rev_ind; intros s.
  - by intros [= <-].
  - rewrite run_app.
    destruct (run (NewService parent_err sig) tr) as [s0|] eqn:Hrun0; [|done].
    simpl. destruct (step s0 l) as [s1|] eqn:Hs; [|done].
    intros [= ->] Hb.
    pose proof (IH s0 eq_refl (step_bridge_select _ _ _ Hs Hb)) as Hsig.
    destruct (run_bridge_started _ _ _ Hrun0) as [Hn _].
    rewrite notify_new in Hn.
    rewrite first_signal_snoc, <- Hsig. clear IH Hrun0 Hsig.
    step_inv Hs; try done; try by destruct sigC0.
    all: match goal with H : bool_decide _ = _ |- _ => by rewrite H end.
Qed.

(** X6.  When the signal goroutine returns through its [sigC] case, the
    [SignalError] it returns holds the first of the registered signals
    that the system delivered: the channel keeps the first signal and
    drops those that follow until it is read. *)
Theorem bridge_reports_first_signal parent_err sig tr s s' :
  run (NewService parent_err sig) tr = Some s →
  step s LBridgeSig = Some s' →
  ∃ x, first_signal sig tr = Some x
    ∧ ops s' = ops s ++ [EvExit MBridge (Some (ESignal {| Signal := x |}))].
Proof.
  intros Hrun H.
  assert (∃ x, bridge s = Some BSelect ∧ sigC s = Some x
            ∧ ops s' = ops s ++ [EvExit MBridge (Some (ESignal {| Signal := x |}))])
    as (x & Hb & Hx & ?).
  { step_inv H; eauto. }
  exists x. split; [|done].
  by rewrite <- (run_first_signal _ _ _ _ Hrun Hb).
Qed.

(** X7.  The message of a [SignalError] determines the description of
    its signal: two such errors have the same message exactly when their
    signals have the same description. *)
Theorem SignalError_Error_inj (Signal_String : Sig → string) (a b : @SignalError Sig) :
  Error Signal_String a = Error Signal_String b
  ↔ Signal_String (Signal a) = Signal_String (Signal b).
Proof.
  unfold Error. split; [|by intros ->].
  simpl. by intros [= ?].
Qed.

(** ** The cause of the termination *)

(** A signal in the channel is a registered signal. *)
Lemma reachable_sigC s x : reachable s → sigC s = Some x → x ∈ notify s.
Proof.
  intros Hr. revert x. induction Hr as [pe sig|s l s' Hr IH H]; [done|].
  intros x Hx. destruct (step_bridge_started _ _ _ H) as [-> _].
  destruct (step_sigC _ _ _ _ H Hx) as [?|[_ ?]]; auto.
Qed.

Lemma step_cause s l s' e :
  reachable s → step s l = Some s' →
  g_err s = None → g_err s' = Some e →
  (∃ t, tasks s' !! t = Some (TReturned (Some e)))
  ∨ ctx_err s' = Some e
  ∨ (∃ x, x ∈ notify s' ∧ e = ESignal {| Signal := x |}).
Proof.
  intros Hr H Hg Hg'. pose proof (λ x, reachable_sigC s x Hr) as Hsig.
  step_inv H; simplify_eq/=; auto.
  all: try (left; eexists; apply list_lookup_insert_eq; by eapply lookup_lt_Some).
  all: right; right; eexists; split; [by apply Hsig|done].
Qed.

(** X9.  The error that [Wait] returns is never made up: it is an error
    that a task returned, or the error of the cancelled context, or the
    [SignalError] of a registered signal. *)
Theorem termination_cause parent_err sig tr s e :
  run (NewService parent_err sig) tr = Some s →
  Wait s = Some (Some e) →
  (∃ t, tasks s !! t = Some (TReturned (Some e)))
  ∨ ctx_err s = Some e
  ∨ (∃ x, x ∈ sig ∧ e = ESignal {| Signal := x |}).
Proof.
  intros Hrun Hw. destruct (Wait_Some _ _ Hw) as (Hg & _). symmetry in Hg.
  clear Hw.
  destruct (run_bridge_started _ _ _ Hrun) as [Hn _].
  rewrite notify_new in Hn. rewrite <- Hn. clear Hn.
  assert (reachable (NewService (Hook:=Hook) parent_err sig)) as Hr0
    by constructor.
  assert (g_err (NewService (Hook:=Hook) parent_err sig) = None) as Hg0 by done.
  revert Hrun Hr0 Hg0. generalize (NewService (Hook:=Hook) parent_err sig) as s0.
  induction tr as [|l tr IH]; intros s0; simpl.
  - intros [= <-] _ Hg0. by rewrite Hg0 in Hg.
  - destruct (step s0 l) as [s1|] eqn:Hs; [|done]. intros Hrun Hr0 Hg0.
    assert (reachable s1) as Hr1 by (by eapply reachable_step).
    destruct (g_err s1) as [e1|] eqn:Hg1; [|by apply (IH s1)].
    assert (e1 = e) as ->.
    { pose proof (run_g_err _ _ _ _ Hrun Hg1). congruence. }
    destruct (run_bridge_started _ _ _ Hrun) as [-> _].
    destruct (step_cause _ _ _ _ Hr0 Hs Hg0 Hg1) as [[t Ht]|[Hc|Hx]].
    + left. exists t. by eapply run_tasks.
    + right; left. by eapply run_ctx_err.
    + by right; right.
Qed.

(** An undisturbed service stays undisturbed while signals arrive. *)
Lemma calm_step s l s' :
  ctx_err s = None ∧ g_err s = None ∧ manager s = MSelect →
  calm l = true → step s l = Some s' →
  ctx_err s' = None ∧ g_err s' = None ∧ manager s' = MSelect.
Proof. intros (Hc & Hg & Hm) Hl H. step_inv H; done. Qed.

(** X10.  If the signal goroutine receives a signal before any task has
    failed and before the parent context is cancelled, then [Wait],
    when it returns, returns the [SignalError] of the first registered
    signal that was delivered. *)
Theorem signal_wins sig tr1 tr2 s r :
  run (NewService None sig) (tr1 ++ LBridgeSig :: tr2) = Some s →
  forallb calm tr1 = true →
  Wait s = Some r →
  ∃ x, first_signal sig tr1 = Some x ∧ x ∈ sig
    ∧ r = Some (ESignal {| Signal := x |}).
Proof.
  rewrite run_app. intros Hrun Hq Hw.
  destruct (run (NewService None sig) tr1) as [s1|] eqn:H1; [|done].
  simpl in Hrun.
  destruct (bridge_step true s1) as [s2|] eqn:H2'; [|done].
  assert (step s1 LBridgeSig = Some s2) as H2 by done.
  assert (g_err s1 = None) as Hg.
  { cut (ctx_err s1 = None ∧ g_err s1 = None ∧ manager s1 = MSelect);
      [by intros (_ & ? & _)|].
    assert (ctx_err (NewService (Hook:=Hook) None sig) = None
            ∧ g_err (NewService (Hook:=Hook) None sig) = None
            ∧ manager (NewService (Hook:=Hook) None sig) = MSelect) as H0 by done.
    clear -H1 Hq H0. revert H1 Hq H0.
    generalize (NewService (Hook:=Hook) None sig) as s0.
    induction tr1 as [|l tr IH]; intros s0; simpl.
    - by intros [= <-].
    - destruct (step s0 l) as [s'|] eqn:Hs; [|done].
      intros Hrun [Hl Htr]%andb_true_iff H0.
      apply (IH s'); [done..|]. by eapply calm_step. }
  assert (∃ x, bridge s1 = Some BSelect ∧ sigC s1 = Some x
            ∧ g_err s2 = Some (ESignal {| Signal := x |}))
    as (x & Hb & Hx & Hg2).
  { clear -H2 Hg. step_inv H2; eauto. }
  exists x. split_and!.
  - by rewrite <- (run_first_signal _ _ _ _ H1 Hb).
  - pose proof (reachable_sigC s1 x (run_new_reachable _ _ _ _ H1) Hx) as Hin.
    destruct (run_bridge_started _ _ _ H1) as [Hn _].
    by rewrite Hn, notify_new in Hin.
  - destruct (Wait_Some _ _ Hw) as (-> & _). by eapply run_g_err.
Qed.

End theory.

(** ** The tests *)

Ltac compute_eq := vm_compute; reflexivity.

Lemma final_run sig tr s : run (NewService None sig) tr = Some s → final sig tr = s.
Proof. unfold final. by intros ->. Qed.

Example TestServiceError_ok :
  run (NewService None [SIGUSR2]) TestServiceError = Some TestServiceError_end
  ∧ Wait TestServiceError_end = Some (Some test_error)
  ∧ error_Error syscall_Signal_String test_error = "test error".
Proof. split_and!; compute_eq. Qed.

Example TestSignal_ok :
  run (NewService None [SIGUSR1]) TestSignal = Some TestSignal_end
  ∧ Wait TestSignal_end = Some (Some (ESignal {| Signal := SIGUSR1 |}))
  ∧ error_Error syscall_Signal_String (ESignal {| Signal := SIGUSR1 |})
    = "received user defined signal 1".
Proof. split_and!; compute_eq. Qed.

Example TestOnShutdown_ok :
  run (NewService None []) TestOnShutdown = Some TestOnShutdown_end
  ∧ ended (ops TestOnShutdown_end) = ["shutdown-2"; "shutdown-1"; "shutdown-3"]
  ∧ ops TestOnShutdown_end !! 6 = Some (EvWait (Some test_error)).
Proof. split_and!; compute_eq. Qed.

(** Without signals there is no signal goroutine. *)
Example no_signal_no_bridge :
  bridge (NewService (Sig:=syscall_Signal) (Hook:=string) None []) = None
  ∧ bridge (NewService (Hook:=string) None [SIGUSR1]) = Some BSelect.
Proof. split; compute_eq. Qed.

(** ** The properties on concrete executions *)

(** [first_failure_wins] on [TestServiceError]. *)
Lemma first_failure_wins_witness :
  Some test_error = Some test_error
  ∧ Forall (λ t, t ≠ TRunning) (tasks TestServiceError_end)
  ∧ bridge TestServiceError_end ≠ Some BSelect
  ∧ manager TestServiceError_end = MReturned
  ∧ tasks TestServiceError_end !! 0 = Some (TReturned (Some test_error)).
Proof.
  apply (first_failure_wins [SIGUSR2] [LGo] 0 test_error
           [LMgrDone; LMgrExit; LBridgeDone]); compute_eq.
Defined.

(** C1 as stated fails: exactly one task returns a non-nil error, but
    the parent context was cancelled first (or a signal arrived first),
    and [Wait] returns that other cause. *)
Lemma first_failure_may_lose :
  ¬ (∀ (sig : list syscall_Signal) (tr : list tlabel) s t E r,
       run (NewService None sig) tr = Some s →
       tasks s !! t = Some (TReturned (Some E)) →
       (∀ t' e', t' ≠ t → tasks s !! t' = Some (TReturned e') → e' = None) →
       Wait s = Some r →
       r = Some E)
  ∧ run (NewService None []) parent_cancelled_first
    = Some parent_cancelled_first_end
  ∧ tasks parent_cancelled_first_end = [TReturned (Some test_error)]
  ∧ Wait parent_cancelled_first_end = Some (Some Canceled)
  ∧ run (NewService None [SIGUSR2]) signal_first = Some signal_first_end
  ∧ tasks signal_first_end = [TReturned (Some test_error)]
  ∧ Wait signal_first_end = Some (Some (ESignal {| Signal := SIGUSR2 |})).
Proof.
  split_and!; try compute_eq.
  intros H.
  assert (Some Canceled = Some test_error) as Hx; [|discriminate Hx].
  apply (H [] parent_cancelled_first parent_cancelled_first_end 0).
  - compute_eq.
  - compute_eq.
  - intros [|t'] e' Hne Hl; [done|]. vm_compute in Hl. discriminate Hl.
  - compute_eq.
Defined.


(** [hooks_run_in_reverse] on [TestOnShutdown]: the failure of the task
    cancels the context. *)
Lemma hooks_run_in_reverse_witness :
  (∀ s0 tr0, run s0 tr0 = Some TestOnShutdown_registered →
     funcs s0 `prefix_of` funcs TestOnShutdown_registered)
  ∧ (∀ c f, (c, f) ∈ funcs TestOnShutdown_registered
       ↔ calls TestOnShutdown_registered !! c = Some (f, OReturned))
  ∧ hook_events (ops TestOnShutdown_registered) = []
  ∧ funcs TestOnShutdown_end = funcs TestOnShutdown_registered
  ∧ (∀ l' s', step TestOnShutdown_end l' = Some s' →
       funcs s' = funcs TestOnShutdown_end)
  ∧ by_who ByManager (ops TestOnShutdown_end)
      `prefix_of` drained (reverse (funcs TestOnShutdown_registered))
  ∧ (manager TestOnShutdown_end = MReturned →
       by_who ByManager (ops TestOnShutdown_end)
       = drained (reverse (funcs TestOnShutdown_registered))
       ∧ executed (ops TestOnShutdown_end)
         = reverse (funcs TestOnShutdown_registered))
  ∧ (∃ tr' s', run TestOnShutdown_end tr' = Some s' ∧ manager s' = MReturned
       ∧ executed (ops s') = reverse (funcs TestOnShutdown_registered)).
Proof.
  apply (hooks_run_in_reverse TestOnShutdown_registered
           (LTaskReturn 0 (Some test_error)) TestOnShutdown_cancelled
           (drop 6 TestOnShutdown)).
  - apply (run_new_reachable None [] (take 5 TestOnShutdown)). compute_eq.
  - compute_eq.
  - compute_eq.
  - exists Canceled. compute_eq.
  - compute_eq.
Defined.


(** [Wait_joins] at the end of [TestServiceError]. *)
Lemma Wait_joins_witness :
  (is_Some (Wait TestServiceError_end) ↔
     Forall (λ t, t ≠ TRunning) (tasks TestServiceError_end)
     ∧ bridge TestServiceError_end ≠ Some BSelect
     ∧ manager TestServiceError_end = MReturned)
  ∧ (∀ r, Wait TestServiceError_end = Some r →
       r = g_err TestServiceError_end
       ∧ r = first_error (ops TestServiceError_end))
  ∧ ((∀ t e, tasks TestServiceError_end !! t = Some (TReturned e) → e = None) →
     ctx_err TestServiceError_end = None → g_err TestServiceError_end = None).
Proof.
  apply Wait_joins.
  apply (run_new_reachable None [SIGUSR2] TestServiceError). compute_eq.
Defined.

(** [Wait_returns_an_error] at the end of [TestSignal]. *)
Lemma Wait_returns_an_error_witness :
  is_Some (Some (ESignal (Sig:=syscall_Signal) {| Signal := SIGUSR1 |})).
Proof.
  apply (Wait_returns_an_error TestSignal_end).
  - apply (run_new_reachable None [SIGUSR1] TestSignal). compute_eq.
  - compute_eq.
Defined.

(** [Wait_needs_cancellation] on an undisturbed service. *)
Lemma Wait_needs_cancellation_witness :
  (LWait ∉ undisturbed)
  ∧ Wait undisturbed_end = None
  ∧ ctx_err undisturbed_end = None.
Proof.
  apply (Wait_needs_cancellation None [SIGUSR1] undisturbed undisturbed_end);
    compute_eq.
Defined.

(** [hooks_wait_for_cancellation] on an undisturbed service: one
    function is queued, one call still waits, nothing has run. *)
Lemma hooks_wait_for_cancellation_witness :
  hook_events (ops undisturbed_end) = []
  ∧ manager undisturbed_end = MSelect
  ∧ (∀ c f pc, calls undisturbed_end !! c = Some (f, pc) → pc ≠ OCall)
  ∧ (∀ c f, calls undisturbed_end !! c = Some (f, OReturned) →
       (c, f) ∈ funcs undisturbed_end)
  ∧ (∀ c f, calls undisturbed_end !! c = Some (f, OSelect) →
       step undisturbed_end (LCallerDone c) = None
       ∧ ∃ s', step undisturbed_end (LSend c) = Some s'
           ∧ funcs s' = funcs undisturbed_end ++ [(c, f)]
           ∧ calls s' !! c = Some (f, OReturned)
           ∧ ops s' = ops undisturbed_end).
Proof.
  apply hooks_wait_for_cancellation.
  - apply (run_new_reachable None [SIGUSR1] undisturbed). compute_eq.
  - compute_eq.
Defined.

(** [signal_bridge] in [TestSignal], when the signal is in the channel. *)
Lemma signal_bridge_witness :
  (is_Some (bridge TestSignal_pending) ↔ 0 < length [SIGUSR1])
  ∧ (∀ s', step TestSignal_pending LBridgeDone = Some s' →
       ∃ e, ctx_err TestSignal_pending = Some e
         ∧ bridge s' = Some BReturned
         ∧ ops s' = ops TestSignal_pending ++ [EvExit MBridge (Some e)])
  ∧ (∀ s', step TestSignal_pending LBridgeSig = Some s' →
       ∃ x, sigC TestSignal_pending = Some x ∧ x ∈ [SIGUSR1]
         ∧ LSignal x ∈ take 2 TestSignal
         ∧ bridge s' = Some BReturned
         ∧ ops s' = ops TestSignal_pending
             ++ [EvExit MBridge (Some (ESignal {| Signal := x |}))])
  ∧ (bridge TestSignal_pending = Some BSelect →
       (is_Some (step TestSignal_pending LBridgeDone)
        ↔ is_Some (ctx_err TestSignal_pending))
       ∧ (is_Some (step TestSignal_pending LBridgeSig)
          ↔ is_Some (sigC TestSignal_pending))).
Proof.
  apply (signal_bridge None [SIGUSR1] (take 2 TestSignal)). compute_eq.
Defined.

(** ** The further properties on concrete executions *)

Lemma hook_runs_once_witness :
  ∃ w, of_call 1 (ops TestOnShutdown_end)
       `prefix_of` [EvStart w 1 "shutdown-2"; EvEnd w 1 "shutdown-2"].
Proof.
  apply (hook_runs_once TestOnShutdown_end 1 "shutdown-2" OReturned).
  - apply (run_new_reachable None [] TestOnShutdown). compute_eq.
  - compute_eq.
Defined.

Lemma Wait_waits_for_hooks_witness :
  ∃ w, of_call 0 (ops TestOnShutdown_end)
       = [EvStart w 0 "shutdown-1"; EvEnd w 0 "shutdown-1"].
Proof.
  apply (Wait_waits_for_hooks TestOnShutdown_end 0 "shutdown-1").
  - apply (run_new_reachable None [] TestOnShutdown). compute_eq.
  - exists (Some test_error). compute_eq.
  - compute_eq.
Defined.

Lemma no_hook_before_failure_witness :
  hooks_after_failure (ops TestOnShutdown_end).
Proof.
  apply (no_hook_before_failure [] TestOnShutdown); compute_eq.
Defined.

Lemma Wait_again_witness :
  Wait TestOnShutdown_end = Some (Some test_error).
Proof.
  apply (Wait_again TestOnShutdown_waited (Some test_error)
           (drop 13 TestOnShutdown)); compute_eq.
Defined.


Lemma bridge_reports_first_signal_witness :
  ∃ x, first_signal [SIGUSR1] (take 2 TestSignal) = Some x
    ∧ ops TestSignal_reported
      = ops TestSignal_pending
        ++ [EvExit MBridge (Some (ESignal {| Signal := x |}))].
Proof.
  apply (bridge_reports_first_signal None [SIGUSR1] (take 2 TestSignal));
    compute_eq.
Defined.

Lemma registered_later_runs_earlier_witness :
  ∃ i j, j < i
    ∧ executed (ops TestOnShutdown_end) !! j
      = Some (length (calls TestOnShutdown_one), "shutdown-2")
    ∧ executed (ops TestOnShutdown_end) !! i = Some (0, "shutdown-1").
Proof.
  apply (registered_later_runs_earlier TestOnShutdown_one 0 "shutdown-1"
           "shutdown-2" TestOnShutdown_second (drop 3 TestOnShutdown)).
  - apply (run_new_reachable None [] (take 2 TestOnShutdown)). compute_eq.
  - apply (list_elem_of_lookup_2 _ 0). compute_eq.
  - compute_eq.
  - compute_eq.
  - apply (list_elem_of_lookup_2 _ 1). compute_eq.
  - compute_eq.
Defined.

Lemma termination_cause_witness :
  (∃ t, tasks signal_first_end !! t
        = Some (TReturned (Some (ESignal {| Signal := SIGUSR2 |}))))
  ∨ ctx_err signal_first_end = Some (ESignal {| Signal := SIGUSR2 |})
  ∨ (∃ x, x ∈ [SIGUSR2]
       ∧ ESignal {| Signal := SIGUSR2 |} = ESignal {| Signal := x |}).
Proof.
  apply (termination_cause None [SIGUSR2] signal_first); compute_eq.
Defined.

Lemma signal_wins_witness :
  ∃ x, first_signal [SIGUSR1] (take 2 TestSignal) = Some x
    ∧ x ∈ [SIGUSR1]
    ∧ Some (ESignal {| Signal := SIGUSR1 |}) = Some (ESignal {| Signal := x |}).
Proof.
  apply (signal_wins [SIGUSR1] (take 2 TestSignal) (drop 3 TestSignal)
           TestSignal_end);
    compute_eq.
Defined.
